(** * Logic-Truth-Table-Generator: the RPN compiler and the truth-table renderer

    A shallow embedding of [generateRPN] and [generateTruthTable] of
    [src/main.ts] (the second source file carries the same two functions),
    and the properties of them that the specification states.

    Modelling conventions.
    - A JavaScript string is a [string]; its characters are the code units
      below 256.  The token the scanner reads with [charAt] is a string of
      one character.
    - A JavaScript number that the program only uses as a counter or an
      index ([variableCount], [runNumber], [i], array indexes) is a [nat];
      the numbers on the operating stack, on which [&], [|] and [^] act,
      are [Z] with the 32-bit conversion of these operators written out.
      Arithmetic is exact, as the program's is while [runNumber] stays
      below 2^53.
    - [undefined] is [None]: a missing property, a hole of an array and the
      result of [pop] on an empty array.
    - An array used only through [push], [pop], [last] and [length] is a
      list whose head is the array's last element.
    - [console.log] has no effect on the result and is left out.
    - A thrown [TypeError] (a property read on [undefined]) is the
      [Throws] outcome. *)

From Stdlib Require Import ZArith Ascii.
From stdpp Require Import base tactics option list list_numbers strings gmap pretty.

Local Open Scope Z_scope.

(** * The program *)

(** ** Outcomes: a value, or a thrown exception *)

Inductive exn : Type := TypeError.

Inductive outcome (A : Type) : Type :=
| Returns (a : A)
| Throws (e : exn).
Arguments Returns {A} a.
Arguments Throws {A} e.

Global Instance outcome_bind : MBind outcome := λ A B k m,
  match m with
  | Returns a => k a
  | Throws e => Throws e
  end.

Global Instance outcome_fmap : FMap outcome := λ A B f m,
  match m with
  | Returns a => Returns (f a)
  | Throws e => Throws e
  end.

(** The [for] loop over the items of a list, the state threaded through. *)
Fixpoint for_each {A S : Type} (body : S → A → outcome S) (items : list A) (s : S)
  : outcome S :=
  match items with
  | [] => Returns s
  | x :: rest => s' ← body s x; for_each body rest s'
  end.

(** ** JavaScript strings and objects *)

(** The one-character strings of a string, in order: [s.charAt(i)] for
    [i] from 0 to [s.length - 1]. *)
Fixpoint chars (s : string) : list string :=
  match s with
  | EmptyString => []
  | String c rest => String c EmptyString :: chars rest
  end.

(** White space and line terminators among the code units below 256:
    tab, line feed, vertical tab, form feed, carriage return, space and
    the no-break space. *)
Definition is_white_space (c : ascii) : bool :=
  bool_decide (nat_of_ascii c ∈ [9; 10; 11; 12; 13; 32; 160]%nat).

Fixpoint trim_start (s : string) : string :=
  match s with
  | EmptyString => EmptyString
  | String c rest => if is_white_space c then trim_start rest else s
  end.

(** [String.prototype.trim]. *)
Definition trim (s : string) : string :=
  String.rev (trim_start (String.rev (trim_start s))).

(** [Array.prototype.join] over strings; an [undefined] item joins as
    the empty string. *)
Fixpoint join (sep : string) (items : list (option string)) : string :=
  match items with
  | [] => ""
  | [x] => default "" x
  | x :: rest => default "" x +:+ sep +:+ join sep rest
  end.

(** String concatenation with a value that may be [undefined]. *)
Definition to_string (v : option string) : string := default "undefined" v.

(** An object with string keys and string values, its own properties in
    creation order. *)
Definition object : Type := list (string * string).

(** [o[key]], and [key in o] when the result is not [undefined]: no key
    the program looks up is the name of an inherited property. *)
Fixpoint prop_get (o : object) (key : string) : option string :=
  match o with
  | [] => None
  | (k, v) :: rest => if decide (k = key) then Some v else prop_get rest key
  end.

(** [o[key] = value]: an existing property keeps its place. *)
Fixpoint prop_set (o : object) (key value : string) : object :=
  match o with
  | [] => [(key, value)]
  | (k, v) :: rest =>
      if decide (k = key) then (k, value) :: rest else (k, v) :: prop_set rest key value
  end.

(** The keys that are array indexes: the canonical decimal form of an
    integer below 2^32 - 1. *)
Definition digit_value (c : ascii) : option N :=
  N.of_nat <$> Ascii.is_nat c.

Fixpoint parse_digits (acc : N) (s : string) : option N :=
  match s with
  | EmptyString => Some acc
  | String c rest => d ← digit_value c; parse_digits (10 * acc + d)%N rest
  end.

Definition index_of_key (key : string) : option N :=
  match key with
  | EmptyString => None
  | _ =>
      n ← parse_digits 0%N key;
      if decide (pretty n = key ∧ (n < 2 ^ 32 - 1)%N) then Some n else None
  end.

Fixpoint insert_index (k : N * string) (sorted : list (N * string)) : list (N * string) :=
  match sorted with
  | [] => [k]
  | k' :: rest =>
      if decide (k.1 ≤ k'.1)%N then k :: sorted else k' :: insert_index k rest
  end.

(** [Object.keys]: the index keys in ascending numeric order, then the
    other keys in creation order. *)
Definition Object_keys (o : object) : list string :=
  let keys := o.*1 in
  let indexes := omap (λ k, n ← index_of_key k; Some (n, k)) keys in
  (foldr insert_index [] indexes).*2
    ++ filter (λ k, index_of_key k = None) keys.

(** ** The operator table *)

Record operator : Type := { priority : Z; latex : string }.

(** [operators[key]], and [key in operators] when the result is not
    [undefined].  This is the table's own properties: [in] also holds of
    the names that an object inherits ([toString], [constructor] and the
    like).  The keys the program tests are the characters of the
    proposition and the tokens of the data of a compilation, which are
    characters and code names [var1], [var2], ...; none of them is such a
    name, and the properties about the header pass are stated of
    compilations. *)
Definition operators (key : string) : option operator :=
  if decide (key = "~") then Some {| priority := 5; latex := "\neg{}" |}
  else if decide (key = "&") then Some {| priority := 4; latex := "\land{}" |}
  else if decide (key = "|") then Some {| priority := 3; latex := "\lor{}" |}
  else if decide (key = "^") then Some {| priority := 3; latex := "\oplus{}" |}
  else if decide (key = ">") then Some {| priority := 2; latex := "\implies{}" |}
  else if decide (key = "<") then Some {| priority := 1; latex := "\iff{}" |}
  else None.

(** ** The compiler: [generateRPN] *)

Record RPN : Type := {
  data : list string;
  codeVars : list string;
  mathToCodeVars : object;
  codeToMathVars : object;
  variableCount : nat
}.

(** The scanner's state: the result under construction, the pending
    operations of every nesting level (an array that is also written at
    indexes past its end and below zero, so a map from integers), and the
    current level. *)
Record scanner : Type := {
  rpn : RPN;
  pendingOperations : gmap Z (list string);
  parenLevel : Z
}.

Definition push_data (r : RPN) (tokens : list string) : RPN :=
  {| data := data r ++ tokens;
     codeVars := codeVars r;
     mathToCodeVars := mathToCodeVars r;
     codeToMathVars := codeToMathVars r;
     variableCount := variableCount r |}.

(** [while (stack.length > 0) rpn.data.push(stack.pop())]: the emitted
    tokens, which are the whole stack from its top; the stack is left
    empty. *)
Fixpoint drain (stack : list string) : list string :=
  match stack with
  | [] => []
  | top :: rest => top :: drain rest
  end.

(** [while (stack.length > 0 && operators[stack.last()].priority >
    operators[token].priority) rpn.data.push(stack.pop())]: the emitted
    tokens and the stack that is left. *)
Fixpoint pop_higher (token_priority : Z) (stack : list string)
  : outcome (list string * list string) :=
  match stack with
  | [] => Returns ([], [])
  | top :: rest =>
      match operators top with
      | None => Throws TypeError
      | Some op =>
          if decide (priority op > token_priority) then
            '(emitted, kept) ← pop_higher token_priority rest;
            Returns (top :: emitted, kept)
          else Returns ([], stack)
      end
  end.

(** The first use of a variable: the next code name, recorded in
    [codeVars] and in both mappings.  The code name is returned with the
    result: it is what [rpn.mathToCodeVars[token]] reads just after. *)
Definition declare (r : RPN) (token : string) : RPN * string :=
  let count := S (variableCount r) in
  let codeVar := "var" +:+ pretty count in
  ({| data := data r;
      codeVars := codeVars r ++ [codeVar];
      mathToCodeVars := prop_set (mathToCodeVars r) token codeVar;
      codeToMathVars := prop_set (codeToMathVars r) codeVar token;
      variableCount := count |}, codeVar).

(** One iteration of the scan.  In the last branch the test
    [token in rpn.mathToCodeVars] and the read of [rpn.mathToCodeVars[token]]
    that follows it are one lookup. *)
Definition scan_token (s : scanner) (token : string) : outcome scanner :=
  let pendingOperationsAtLevel := pendingOperations s !! parenLevel s in
  if decide (token = "(") then
    Returns {| rpn := rpn s;
               pendingOperations := pendingOperations s;
               parenLevel := parenLevel s + 1 |}
  else if decide (token = ")") then
    match pendingOperationsAtLevel with
    | None => Throws TypeError
    | Some stack =>
        Returns {| rpn := push_data (rpn s) (drain stack);
                   pendingOperations := <[parenLevel s := []]> (pendingOperations s);
                   parenLevel := parenLevel s - 1 |}
    end
  else
    match operators token with
    | Some op =>
        match pendingOperationsAtLevel with
        | None | Some [] =>
            Returns {| rpn := rpn s;
                       pendingOperations := <[parenLevel s := [token]]> (pendingOperations s);
                       parenLevel := parenLevel s |}
        | Some stack =>
            '(emitted, kept) ← pop_higher (priority op) stack;
            Returns {| rpn := push_data (rpn s) emitted;
                       pendingOperations :=
                         <[parenLevel s := token :: kept]> (pendingOperations s);
                       parenLevel := parenLevel s |}
        end
    | None =>
        let '(r, codeVar) :=
          match prop_get (mathToCodeVars (rpn s)) token with
          | Some codeVar => (rpn s, codeVar)
          | None => declare (rpn s) token
          end in
        Returns {| rpn := push_data r [codeVar];
                   pendingOperations := pendingOperations s;
                   parenLevel := parenLevel s |}
    end.

Definition scan_start : scanner :=
  {| rpn := {| data := []; codeVars := []; mathToCodeVars := [];
               codeToMathVars := []; variableCount := 0 |};
     pendingOperations := {[ 0 := [] ]};
     parenLevel := 0 |}.

(** The drain after the scan, of the stack of the level the scan ended at. *)
Definition scan_end (s : scanner) : outcome RPN :=
  match pendingOperations s !! parenLevel s with
  | None => Throws TypeError
  | Some stack => Returns (push_data (rpn s) (drain stack))
  end.

Definition generateRPN (proposition : string) : outcome RPN :=
  let filteredProp := trim proposition in
  s ← for_each scan_token (chars filteredProp) scan_start;
  scan_end s.

(** ** The renderer: [generateTruthTable] *)

Definition intToChar (num : Z) : option string :=
  if decide (num = 0) then Some "F"
  else if decide (num = 1) then Some "T"
  else None.

Definition newline : string := String (ascii_of_nat 10) EmptyString.

(** [stack.pop()]: [undefined] on an empty array, which it leaves empty. *)
Definition pop {A : Type} (stack : list (option A)) : option A * list (option A) :=
  match stack with
  | [] => (None, [])
  | top :: rest => (top, rest)
  end.

(** A pass over the tokens with an operating stack: what each token adds
    to the text ([None] when it adds nothing), and the stack at the end. *)
Fixpoint replay {T V O : Type} (step : T → list V → option O * list V)
    (tokens : list T) (stack : list V) : list (option O) * list V :=
  match tokens with
  | [] => ([], stack)
  | token :: rest =>
      let '(out, stack1) := step token stack in
      let '(outs, stack2) := replay step rest stack1 in
      (out :: outs, stack2)
  end.

(** *** The header pass *)

(** The body of the loop over [rpn.data], for a token that is a character
    or a code name of a compilation (see [operators]). *)
Definition header_step (r : RPN) (token : string) (stack : list (option string))
  : option string * list (option string) :=
  match operators token with
  | Some op =>
      let '(operation, stack') :=
        if decide (token = "~") then
          let '(operand, stack1) := pop stack in
          ("\overline{" +:+ to_string operand +:+ "}", stack1)
        else
          let '(rhs, stack1) := pop stack in
          let '(lhs, stack2) := pop stack1 in
          (to_string lhs +:+ latex op +:+ to_string rhs, stack2) in
      (Some operation, Some operation :: stack')
  | None => (None, prop_get (codeToMathVars r) token :: stack)
  end.

Definition header_text (operation : option string) : string :=
  match operation with
  | Some operation => " $" +:+ operation +:+ "$ |"
  | None => ""
  end.

Definition divider_text (operation : option string) : string :=
  match operation with
  | Some _ => "-|"
  | None => ""
  end.

Fixpoint concat_text {A : Type} (text : A → string) (items : list A) : string :=
  match items with
  | [] => ""
  | x :: rest => text x +:+ concat_text text rest
  end.

(** *** The numeric pass *)

(** An item of [convertedRPNData]: a number or a string. *)
Inductive converted : Type :=
| Index (i : nat)
| Symbol (s : string).

(** [rpn.codeVars.includes(value) ? rpn.codeVars.indexOf(value) : value]. *)
Definition convert (r : RPN) (value : string) : converted :=
  match list_find (λ v, v = value) (codeVars r) with
  | Some (i, _) => Index i
  | None => Symbol value
  end.

(** Truthiness of a number or [undefined]. *)
Definition truthy (v : option Z) : bool :=
  match v with
  | Some n => bool_decide (n ≠ 0)
  | None => false
  end.

(** The conversion to a 32-bit integer that [&], [|] and [^] apply to
    their operands. *)
Definition ToInt32 (v : option Z) : Z :=
  match v with
  | Some n => (n + 2 ^ 31) `mod` 2 ^ 32 - 2 ^ 31
  | None => 0
  end.

(** [Number(b)] of a boolean. *)
Definition Number (b : bool) : Z := if b then 1 else 0.

Definition numeric_step (values : list Z) (token : converted) (stack : list (option Z))
  : option Z * list (option Z) :=
  match token with
  | Index i => (None, values !! i :: stack)
  | Symbol s =>
      let '(value, stack') :=
        if decide (s = "~") then
          let '(operand, stack1) := pop stack in
          (Number (negb (truthy operand)), stack1)
        else if decide (s = "&") then
          let '(rhs, stack1) := pop stack in
          let '(lhs, stack2) := pop stack1 in
          (Z.land (ToInt32 lhs) (ToInt32 rhs), stack2)
        else if decide (s = "|") then
          let '(rhs, stack1) := pop stack in
          let '(lhs, stack2) := pop stack1 in
          (Z.lor (ToInt32 lhs) (ToInt32 rhs), stack2)
        else if decide (s = "^") then
          let '(rhs, stack1) := pop stack in
          let '(lhs, stack2) := pop stack1 in
          (Z.lxor (ToInt32 lhs) (ToInt32 rhs), stack2)
        else if decide (s = ">") then
          let '(rhs, stack1) := pop stack in
          let '(lhs, stack2) := pop stack1 in
          (if truthy lhs && negb (truthy rhs) then 0 else 1, stack2)
        else if decide (s = "<") then
          let '(rhs, stack1) := pop stack in
          let '(lhs, stack2) := pop stack1 in
          (Number (bool_decide (lhs = rhs)), stack2)
        else (0, stack) in
      (Some value, Some value :: stack')
  end.

Definition cell_text (value : option Z) : string :=
  match value with
  | Some value => to_string (intToChar value) +:+ "|"
  | None => ""
  end.

(** *** The rows *)

(** The body of the inner loop over [i]: [values[i]] is negated when
    the run number is a multiple of [2 ** (variableCount - i - 1)]. *)
Definition toggle (variableCount runNumber : nat) (values : list Z) (i : nat) : list Z :=
  if decide (runNumber `mod` 2 ^ (variableCount - i - 1) = 0)%nat
  then <[i := Number (negb (truthy (values !! i)))]> values
  else values.

(** The inner loop, which updates [values] for a run.  [values] has
    [variableCount] items, so every write is within it. *)
Definition next_values (variableCount runNumber : nat) (values : list Z) : list Z :=
  foldl (toggle variableCount runNumber) values (seq 0 variableCount).

(** A run: the values of the variables and what each token adds. *)
Record run : Type := { run_values : list Z; run_cells : list (option Z) }.

Definition row_text (r : run) : string :=
  "|" +:+ join "," (intToChar <$> run_values r) +:+ "|"
      +:+ concat_text cell_text (run_cells r).

(** The loop over [runNumber], [values] carried from one run to the next. *)
Fixpoint runs_from (variableCount : nat) (convertedRPNData : list converted)
    (runNumbers : list nat) (values : list Z) : list run :=
  match runNumbers with
  | [] => []
  | runNumber :: rest =>
      let values := next_values variableCount runNumber values in
      {| run_values := values;
         run_cells := (replay (numeric_step values) convertedRPNData []).1 |}
        :: runs_from variableCount convertedRPNData rest values
  end.

Definition headers (r : RPN) : list (option string) :=
  (replay (header_step r) (data r) []).1.

Definition runs (r : RPN) : list run :=
  runs_from (variableCount r) (convert r <$> data r)
            (seq 0 (2 ^ variableCount r)) (replicate (variableCount r) 0).

Definition generateTruthTable (r : RPN) : string :=
  "| " +:+ join "," (Some <$> Object_keys (mathToCodeVars r)) +:+ " |"
       +:+ concat_text header_text (headers r)
       +:+ newline +:+ ("|-|" +:+ concat_text divider_text (headers r))
       +:+ concat_text (λ run, newline +:+ row_text run) (runs r).

(** * The vocabulary of the properties *)

(** ** Propositions and postfix programs *)

(** A variable is any token that is neither a parenthesis nor an
    operator. *)
Definition is_variable (token : string) : Prop :=
  token ≠ "(" ∧ token ≠ ")" ∧ operators token = None.

Definition is_binary (token : string) : Prop :=
  is_Some (operators token) ∧ token ≠ "~".

Global Instance is_variable_dec token : Decision (is_variable token) :=
  (_ : Decision (token ≠ "(" ∧ token ≠ ")" ∧ operators token = None)).

Global Instance is_binary_dec token : Decision (is_binary token) :=
  (_ : Decision (is_Some (operators token) ∧ token ≠ "~")).

(** A well-formed proposition, as a list of tokens: parentheses are
    balanced and every operator has its operands. *)
Inductive well_formed : list string → Prop :=
| wf_variable token :
    is_variable token → well_formed [token]
| wf_not p :
    well_formed p → well_formed ("~" :: p)
| wf_binary p op q :
    is_binary op → well_formed p → well_formed q → well_formed (p ++ op :: q)
| wf_parens p :
    well_formed p → well_formed ("(" :: p ++ [")"]).

(** A well-formed proposition in which every parenthesised group has an
    operator at its own level.  The flag tells whether the proposition itself
    has one: it is a negation or the two operands of a binary operator. *)
Inductive well_grouped : bool → list string → Prop :=
| wg_variable token :
    is_variable token → well_grouped false [token]
| wg_not b p :
    well_grouped b p → well_grouped true ("~" :: p)
| wg_binary b1 b2 p op q :
    is_binary op → well_grouped b1 p → well_grouped b2 q →
    well_grouped true (p ++ op :: q)
| wg_parens p :
    well_grouped true p → well_grouped false ("(" :: p ++ [")"]).

(** The height of the stack after a postfix program is evaluated from a
    stack of height [height]: [None] when an operator does not find its
    operands (one for [~], two for the others). *)
Fixpoint stack_height (program : list string) (height : nat) : option nat :=
  match program with
  | [] => Some height
  | token :: rest =>
      if decide (token = "~") then
        if decide (1 ≤ height)%nat then stack_height rest height else None
      else if decide (is_Some (operators token)) then
        if decide (2 ≤ height)%nat then stack_height rest (height - 1) else None
      else stack_height rest (S height)
  end.

(** The postfix well-formedness invariant: no operator lacks an operand
    and one value is left. *)
Definition well_formed_postfix (program : list string) : Prop :=
  stack_height program 0 = Some 1%nat.

(** The program the renderer is given: every token of the data is a code
    name or an operator, no code name is an operator, and every code name
    has its place in the values of a run. *)
Definition postfix_program (r : RPN) : Prop :=
  Forall (λ token, token ∈ codeVars r ∨ is_Some (operators token)) (data r)
  ∧ Forall (λ name, operators name = None) (codeVars r)
  ∧ (length (codeVars r) ≤ variableCount r)%nat.

(** The display symbol of a token of the program: the variable's symbol
    for a code name, the token itself for an operator. *)
Definition display (r : RPN) (token : string) : string :=
  default token (prop_get (codeToMathVars r) token).

(** ** Variables and code names *)

Definition codeVar (count : nat) : string := "var" +:+ pretty count.

(** The distinct items of a list, in the order of first occurrence. *)
Definition first_occurrences (items : list string) : list string :=
  foldl (λ seen x, if decide (x ∈ seen) then seen else seen ++ [x]) [] items.

(** The variables of a list of tokens, in the order of first occurrence. *)
Definition variables (tokens : list string) : list string :=
  first_occurrences (filter is_variable tokens).

(** ** The state of the scan *)

(** The state of the scan after the tokens [tokens]: the variables are
    numbered from 1 in the order of their first occurrence, the two
    mappings list them in that order, the data holds code names and
    operators, and the pending stacks hold operators. *)
Record scanned (tokens : list string) (s : scanner) : Prop := {
  scanned_count :
    variableCount (rpn s) = length (variables tokens);
  scanned_codeVars :
    codeVars (rpn s) = codeVar <$> seq 1 (length (variables tokens));
  scanned_mathToCodeVars :
    mathToCodeVars (rpn s)
    = zip (variables tokens) (codeVar <$> seq 1 (length (variables tokens)));
  scanned_codeToMathVars :
    codeToMathVars (rpn s)
    = zip (codeVar <$> seq 1 (length (variables tokens))) (variables tokens);
  scanned_data :
    Forall (λ t, t ∈ codeVars (rpn s) ∨ is_Some (operators t)) (data (rpn s));
  scanned_occurrences :
    omap (prop_get (codeToMathVars (rpn s))) (data (rpn s))
    = filter is_variable tokens;
  scanned_pending :
    ∀ level stack, pendingOperations s !! level = Some stack →
                   Forall (λ t, is_Some (operators t)) stack
}.

(** The stack of the current level, empty when none is stored. *)
Definition level_stack (s : scanner) : list string :=
  default [] (pendingOperations s !! parenLevel s).

(** The operators of a stack that take two operands. *)
Definition binaries (stack : list string) : nat :=
  length (filter (λ token, token ≠ "~") stack).

(** What the scan maintains between the tokens of a well-formed
    proposition: the pending stacks hold operators, the levels above the
    current one hold none, and the variables have code names that are not
    operators. *)
Record steady (s : scanner) : Prop := {
  steady_pending :
    ∀ level stack, pendingOperations s !! level = Some stack →
                   Forall (λ t, is_Some (operators t)) stack;
  steady_above :
    ∀ level, parenLevel s < level → default [] (pendingOperations s !! level) = [];
  steady_names :
    ∀ symbol name, prop_get (mathToCodeVars (rpn s)) symbol = Some name →
                   operators name = None
}.

(** The scanner where an operand is expected: the data is a postfix
    program that leaves [height] values, enough for the binary operators that
    are pending at the current level. *)
Definition expecting (s : scanner) (height : nat) : Prop :=
  steady s
  ∧ stack_height (data (rpn s)) 0 = Some height
  ∧ (binaries (level_stack s) ≤ height)%nat.

(** The scanner [s'] after an operand read from [s]: the level is the
    same, the levels below are untouched, and the data leaves one value more
    than before, the change of the pending binary operators counted. *)
Definition operand_read (s : scanner) (height : nat) (s' : scanner) : Prop :=
  steady s'
  ∧ parenLevel s' = parenLevel s
  ∧ (∀ level, level < parenLevel s →
              pendingOperations s' !! level = pendingOperations s !! level)
  ∧ ∃ height',
      stack_height (data (rpn s')) 0 = Some height'
      ∧ (height' + binaries (level_stack s)
         = height + binaries (level_stack s') + 1)%nat.

(** ** Runs and their values *)

Definition binary (v : Z) : Prop := v = 0 ∨ v = 1.

Definition binary_item (v : option Z) : Prop := v = Some 0 ∨ v = Some 1.

(** The value of the variable at position [i] in run [runNumber]: the
    complement of bit [variableCount - i - 1] of the run number. *)
Definition value_at (variableCount runNumber i : nat) : Z :=
  Number (negb (Nat.testbit runNumber (variableCount - i - 1))).

Definition assignment (variableCount runNumber : nat) : list Z :=
  value_at variableCount runNumber <$> seq 0 variableCount.

(** The values before a run: zeros before the first, and then the
    values of the run before. *)
Definition values_before (variableCount runNumber : nat) : list Z :=
  match runNumber with
  | O => replicate variableCount 0
  | S previous => assignment variableCount previous
  end.

(** The run of a given number. *)
Definition run_of (r : RPN) (runNumber : nat) : run :=
  let values := assignment (variableCount r) runNumber in
  {| run_values := values;
     run_cells := (replay (numeric_step values) (convert r <$> data r) []).1 |}.

(** The number of the run that has given values: its bits, most
    significant first, are the complements of the values. *)
Definition run_number (values : list Z) : nat :=
  foldl (λ number value, 2 * number + Nat.b2n (negb (truthy (Some value))))%nat
        0%nat values.


(** ** The sub-expressions of a postfix program *)

(** What a pass has on its operating stack, as an expression: a token
    that is no operator, an operator over what it took from the stack, or
    what [pop] gives on an empty stack. *)
Inductive expression : Type :=
| Missing
| Leaf (token : string)
| Negation (operand : expression)
| Binary (token : string) (lhs rhs : expression).

Definition pop_expression (stack : list expression) : expression * list expression :=
  match stack with
  | [] => (Missing, [])
  | top :: rest => (top, rest)
  end.

(** The pass that builds the expressions: the stack discipline of the
    header pass and of the numeric pass, with nothing computed. *)
Definition expression_step (token : string) (stack : list expression)
  : option expression * list expression :=
  match operators token with
  | Some _ =>
      let '(node, stack') :=
        if decide (token = "~") then
          let '(operand, stack1) := pop_expression stack in
          (Negation operand, stack1)
        else
          let '(rhs, stack1) := pop_expression stack in
          let '(lhs, stack2) := pop_expression stack1 in
          (Binary token lhs rhs, stack2) in
      (Some node, node :: stack')
  | None => (None, Leaf token :: stack)
  end.

(** The label of an expression: the symbol of a variable, the operand
    of a negation under a bar, the operands of another operator on the two
    sides of its LaTeX text; a missing operand reads [undefined]. *)
Fixpoint label_of (r : RPN) (e : expression) : string :=
  match e with
  | Missing => "undefined"
  | Leaf token => default "undefined" (prop_get (codeToMathVars r) token)
  | Negation operand => "\overline{" +:+ label_of r operand +:+ "}"
  | Binary token lhs rhs =>
      label_of r lhs +:+ from_option latex "" (operators token) +:+ label_of r rhs
  end.

(** The truth value of an expression, [None] for a missing operand: a
    missing operand counts as false, except that [<] holds when its operands
    are the same, both missing or both present and equal. *)
Fixpoint truth_of (valuation : string → option bool) (e : expression) : option bool :=
  match e with
  | Missing => None
  | Leaf token => valuation token
  | Negation operand => Some (negb (default false (truth_of valuation operand)))
  | Binary token lhs rhs =>
      let a := truth_of valuation lhs in
      let b := truth_of valuation rhs in
      Some (if decide (token = "&") then default false a && default false b
            else if decide (token = "|") then default false a || default false b
            else if decide (token = "^") then xorb (default false a) (default false b)
            else if decide (token = ">") then implb (default false a) (default false b)
            else bool_decide (a = b))
  end.

(** The truth value of a code name in a run: that of the item of
    [values] at its place among the code names. *)
Definition leaf_value (r : RPN) (values : list Z) (token : string) : option bool :=
  match convert r token with
  | Index i => (λ value, truthy (Some value)) <$> values !! i
  | Symbol _ => None
  end.

(** What the two passes have on their stacks for an expression: the
    header pass its label, or what [codeToMathVars] has for a token that is no
    operator; the numeric pass the number of its truth value. *)
Definition stack_label (r : RPN) (e : expression) : option string :=
  match e with
  | Missing => None
  | Leaf name => prop_get (codeToMathVars r) name
  | _ => Some (label_of r e)
  end.

Definition stack_value (r : RPN) (values : list Z) (e : expression) : option Z :=
  Number <$> truth_of (leaf_value r values) e.

(** The expressions of the columns: one for every token that is an
    operator. *)
Definition expressions (r : RPN) : list (option expression) :=
  (replay expression_step (data r) []).1.

(** ** Parse trees *)

(** A proposition as the compiler reads it: the parentheses of the input
    are the groups of the tree. *)
Inductive parse : Type :=
| PVar (symbol : string)
| PNot (operand : parse)
| PBin (token : string) (lhs rhs : parse)
| PGroup (inner : parse).

(** The tokens of the input, left to right. *)
Fixpoint tokens_of (t : parse) : list string :=
  match t with
  | PVar symbol => [symbol]
  | PNot operand => "~" :: tokens_of operand
  | PBin token lhs rhs => tokens_of lhs ++ token :: tokens_of rhs
  | PGroup inner => "(" :: tokens_of inner ++ [")"]
  end.

(** The postfix traversal: the operands, then their operator. *)
Fixpoint postfix_of (t : parse) : list string :=
  match t with
  | PVar symbol => [symbol]
  | PNot operand => postfix_of operand ++ ["~"]
  | PBin token lhs rhs => postfix_of lhs ++ postfix_of rhs ++ [token]
  | PGroup inner => postfix_of inner
  end.

Definition priority_of (token : string) : Z :=
  from_option priority 0 (operators token).

(** The lowest priority among the operators of a tree that are outside
    its groups; 6, above every operator, when there is none. *)
Fixpoint loosest (t : parse) : Z :=
  match t with
  | PVar _ | PGroup _ => 6
  | PNot operand => 5 `min` loosest operand
  | PBin token lhs rhs => priority_of token `min` (loosest lhs `min` loosest rhs)
  end.

(** The tree follows the priorities: outside groups, the left operand of
    a binary operator holds only operators of higher priority, its right
    operand only operators of the same or higher priority (operators of the
    same priority nest to the right), and the operand of [~] is a variable,
    a negation or a group. *)
Fixpoint follows_priorities (t : parse) : Prop :=
  match t with
  | PVar symbol => is_variable symbol
  | PNot operand => 5 ≤ loosest operand ∧ follows_priorities operand
  | PBin token lhs rhs =>
      is_binary token
      ∧ priority_of token < loosest lhs
      ∧ priority_of token ≤ loosest rhs
      ∧ follows_priorities lhs ∧ follows_priorities rhs
  | PGroup inner => follows_priorities inner
  end.

Fixpoint parse_size (t : parse) : nat :=
  match t with
  | PVar _ => 1
  | PNot operand => S (parse_size operand)
  | PBin _ lhs rhs => S (parse_size lhs + parse_size rhs)
  | PGroup inner => S (parse_size inner)
  end.

(** [~] before the tokens of a tree: the negation goes to the leftmost
    operand outside the groups. *)
Fixpoint negate_left (t : parse) : parse :=
  match t with
  | PBin token lhs rhs => PBin token (negate_left lhs) rhs
  | _ => PNot t
  end.

(** Whether the tree has an operator, so that its table has a column. *)
Fixpoint has_operator (t : parse) : bool :=
  match t with
  | PVar _ => false
  | PGroup inner => has_operator inner
  | PNot _ | PBin _ _ _ => true
  end.

(** The truth value of a proposition, the variables valued by
    [valuation]. *)
Fixpoint truth (valuation : string → bool) (t : parse) : bool :=
  match t with
  | PVar symbol => valuation symbol
  | PNot operand => negb (truth valuation operand)
  | PBin token lhs rhs =>
      let a := truth valuation lhs in
      let b := truth valuation rhs in
      if decide (token = "&") then a && b
      else if decide (token = "|") then a || b
      else if decide (token = "^") then xorb a b
      else if decide (token = ">") then implb a b
      else Bool.eqb a b
  | PGroup inner => truth valuation inner
  end.

(** The header text of a tree: the symbols and the operators' LaTeX, the
    parentheses left out. *)
Fixpoint latex_of (t : parse) : string :=
  match t with
  | PVar symbol => symbol
  | PNot operand => "\overline{" +:+ latex_of operand +:+ "}"
  | PBin token lhs rhs =>
      latex_of lhs +:+ from_option latex "" (operators token) +:+ latex_of rhs
  | PGroup inner => latex_of inner
  end.

(** What the tokens of a tree, in postfix order, add to the header:
    nothing for a variable, the text of the sub-tree for an operator. *)
Fixpoint header_cells (t : parse) : list (option string) :=
  match t with
  | PVar _ => [None]
  | PNot operand => header_cells operand ++ [Some (latex_of t)]
  | PBin _ lhs rhs => header_cells lhs ++ header_cells rhs ++ [Some (latex_of t)]
  | PGroup inner => header_cells inner
  end.

(** What they add to a row: nothing for a variable, the truth value of
    the sub-tree for an operator. *)
Fixpoint value_cells (valuation : string → bool) (t : parse) : list (option Z) :=
  match t with
  | PVar _ => [None]
  | PNot operand =>
      value_cells valuation operand ++ [Some (Number (truth valuation t))]
  | PBin _ lhs rhs =>
      value_cells valuation lhs ++ value_cells valuation rhs
        ++ [Some (Number (truth valuation t))]
  | PGroup inner => value_cells valuation inner
  end.

(** The value of a variable in a run: the item of [values] at the index
    its code name is converted to. *)
Definition variable_value (r : RPN) (values : list Z) (symbol : string) : option Z :=
  name ← prop_get (mathToCodeVars r) symbol;
  match convert r name with
  | Index i => values !! i
  | Symbol _ => None
  end.

Definition valuation_of (r : RPN) (values : list Z) (symbol : string) : bool :=
  truthy (variable_value r values symbol).

(** The levels above the current one hold no operator. *)
Definition above_empty (s : scanner) : Prop :=
  ∀ level, parenLevel s < level → default [] (pendingOperations s !! level) = [].

(** [decode] reads the code names that the scanner has given so far as
    their variables, and the operators as themselves. *)
Definition decodes (decode : string → string) (s : scanner) : Prop :=
  (∀ name symbol, prop_get (codeToMathVars (rpn s)) name = Some symbol →
                  decode name = symbol)
  ∧ (∀ token, is_Some (operators token) → decode token = token).

(** ** Nesting levels *)

(** The nesting level after a list of tokens: the opening parentheses
    less the closing ones. *)
Definition level_after (tokens : list string) : Z :=
  foldl (λ level token,
           if decide (token = "(") then level + 1
           else if decide (token = ")") then level - 1
           else level) 0 tokens.

(** The levels that have a stack after a list of tokens: level 0, and
    every level on which an operator was read. *)
Definition has_stack (tokens : list string) (level : Z) : Prop :=
  level = 0
  ∨ ∃ i token, tokens !! i = Some token
               ∧ is_Some (operators token)
               ∧ level_after (take i tokens) = level.

(** ** Variables that are array indexes *)

(** The one-character keys that are array indexes. *)
Definition digits : list string :=
  ["0"; "1"; "2"; "3"; "4"; "5"; "6"; "7"; "8"; "9"].

(** The digits with their numbers, in ascending order. *)
Definition digit_indexes : list (N * string) :=
  zip [0; 1; 2; 3; 4; 5; 6; 7; 8; 9]%N digits.

(** A list of indexes in strictly ascending order. *)
Fixpoint ascending (indexes : list (N * string)) : Prop :=
  match indexes with
  | [] => True
  | k :: rest => Forall (λ k', (k.1 < k'.1)%N) rest ∧ ascending rest
  end.

(** ** The text of the table *)

(** The letter of a truth value. *)
Definition letter (b : bool) : string := if b then "T" else "F".

(** Texts one after another, and texts separated by commas. *)
Fixpoint text_of (parts : list string) : string :=
  match parts with
  | [] => ""
  | part :: rest => part +:+ text_of rest
  end.

Fixpoint comma_separated (items : list string) : string :=
  match items with
  | [] => ""
  | [item] => item
  | item :: rest => item +:+ "," +:+ comma_separated rest
  end.

(** The assignment of run [runNumber] to [N] variables, as the row shows
    it: for the variable at position [i], the letter of the complement of
    bit [N - i - 1] of the run number. *)
Definition assignment_text (N runNumber : nat) : string :=
  comma_separated
    ((λ i, letter (negb (Nat.testbit runNumber (N - i - 1)))) <$> seq 0 N).

(** The cells of a row: a letter and a bar for every value. *)
Definition cells_line (cells : list (option Z)) : string :=
  text_of ((λ value, letter (bool_decide (value = 1)) +:+ "|") <$> omap id cells).

(** The data row of run [runNumber]. *)
Definition row_line (N runNumber : nat) (cells : list (option Z)) : string :=
  "|" +:+ assignment_text N runNumber +:+ "|" +:+ cells_line cells.

(** The two lines above the data rows: the header and the divider. *)
Definition table_head (r : RPN) : string :=
  "| " +:+ join "," (Some <$> Object_keys (mathToCodeVars r)) +:+ " |"
       +:+ concat_text header_text (headers r)
       +:+ newline +:+ "|-|" +:+ concat_text divider_text (headers r).

(** * Properties *)

(** ** Worked examples of the specification *)

Example and_table :
  (r ← generateRPN "p&q"; Returns (display r <$> data r, run_values <$> runs r,
                                    (λ run, last (run_cells run)) <$> runs r))
  = Returns (["p"; "q"; "&"],
             [[1; 1]; [1; 0]; [0; 1]; [0; 0]],
             [Some (Some 1); Some (Some 0); Some (Some 0); Some (Some 0)]).
Proof. vm_compute. reflexivity. Qed.

Example not_table :
  (r ← generateRPN "~p"; Returns (display r <$> data r, run_values <$> runs r,
                                   (λ run, last (run_cells run)) <$> runs r))
  = Returns (["p"; "~"], [[1]; [0]], [Some (Some 0); Some (Some 1)]).
Proof. vm_compute. reflexivity. Qed.

(** C3. The documented example compiles to the postfix program
    p q & r s > ~ | t q ~ s ~ ^ | <, its variables p, q, r, s, t taken in
    the order of their first occurrence, and the numeric pass over that
    program with p, r, t true and q, s false ends with the single value 1;
    that assignment is the one of run 10, whose last cell is that value. *)
Theorem worked_example :
  ∃ r, generateRPN "p&q|~(r>s)<t|(~q^~s)" = Returns r
     ∧ display r <$> data r
       = ["p"; "q"; "&"; "r"; "s"; ">"; "~"; "|"; "t"; "q"; "~"; "s"; "~"; "^"; "|"; "<"]
     ∧ display r <$> codeVars r = ["p"; "q"; "r"; "s"; "t"]
     ∧ (replay (numeric_step [1; 0; 1; 0; 1]) (convert r <$> data r) []).2 = [Some 1]
     ∧ run_values <$> runs r !! 10%nat = Some [1; 0; 1; 0; 1]
     ∧ (λ run, last (run_cells run)) <$> runs r !! 10%nat = Some (Some (Some 1)).
Proof. eexists. split; [vm_compute; reflexivity|]. vm_compute. done. Qed.

(** ** Groups without an operator *)

(** C5. A parenthesised group with no operator at its level: the scan
    of [(p)] reads the stack of level 1 at the closing parenthesis, where none
    was ever stored, and the compilation throws. *)
Theorem group_without_operator_throws :
  generateRPN "(p)" = Throws TypeError.
Proof. vm_compute. reflexivity. Qed.

(** C2. A well-formed proposition for which no postfix program is
    produced: the inner group of [((p&q))] stores a stack at level 2 only,
    and the second closing parenthesis reads the missing stack of level 1. *)
Theorem nested_group_throws :
  well_formed (chars (trim "((p&q))")) ∧ generateRPN "((p&q))" = Throws TypeError.
Proof.
  split; [|vm_compute; reflexivity].
  change (well_formed ("(" :: ("(" :: (["p"] ++ "&" :: ["q"]) ++ [")"]) ++ [")"])).
  do 2 apply wf_parens.
  apply wf_binary; [split; [by eexists|done] | |]; by apply wf_variable.
Qed.

(** ** The scan of one token *)

Lemma push_data_nil r : push_data r [] = r.
Proof. destruct r. unfold push_data. simpl. by rewrite app_nil_r. Qed.

Lemma drain_all stack : drain stack = stack.
Proof. induction stack; simpl; congruence. Qed.

Lemma operators_priority token op :
  operators token = Some op → 1 ≤ priority op ≤ 5.
Proof.
  unfold operators. intros H.
  repeat case_decide; simplify_eq; simpl; lia.
Qed.

Lemma operators_not_paren token op :
  operators token = Some op → token ≠ "(" ∧ token ≠ ")".
Proof. intros H. split; intros ->; discriminate. Qed.

(** What [pop_higher] does on a stack of operators: it splits the stack
    at the first operator, from the top, whose priority is not above the
    token's. *)
Lemma pop_higher_spec p stack :
  Forall (λ t, is_Some (operators t)) stack →
  ∃ emitted kept,
    pop_higher p stack = Returns (emitted, kept)
    ∧ stack = emitted ++ kept
    ∧ Forall (λ t, ∃ o, operators t = Some o ∧ priority o > p) emitted
    ∧ match kept with
      | [] => True
      | top :: _ => ∃ o, operators top = Some o ∧ priority o ≤ p
      end.
Proof.
  induction 1 as [|top rest [o Ho] _ IH]; simpl.
  - by exists [], [].
  - rewrite Ho. case_decide as Hp.
    + destruct IH as (emitted & kept & -> & -> & Hem & Hkept).
      exists (top :: emitted), kept. repeat split; [|done].
      constructor; [|done]. eauto.
    + exists [], (top :: rest). repeat split; [done|].
      exists o. split; [done|lia].
Qed.

(** The scan of an operator token, on a level whose stack holds
    operators. *)
Lemma scan_operator (s : scanner) (token : string) (op : operator) :
  operators token = Some op →
  Forall (λ t, is_Some (operators t)) (default [] (pendingOperations s !! parenLevel s)) →
  ∃ emitted kept,
    default [] (pendingOperations s !! parenLevel s) = emitted ++ kept
    ∧ Forall (λ t, ∃ o, operators t = Some o ∧ priority o > priority op) emitted
    ∧ match kept with
      | [] => True
      | top :: _ => ∃ o, operators top = Some o ∧ priority o ≤ priority op
      end
    ∧ scan_token s token
      = Returns {| rpn := push_data (rpn s) emitted;
                   pendingOperations :=
                     <[parenLevel s := token :: kept]> (pendingOperations s);
                   parenLevel := parenLevel s |}.
Proof.
  intros Hop Hstack.
  destruct (operators_not_paren _ _ Hop) as [Hopen Hclose].
  unfold scan_token. rewrite !decide_False, Hop by done.
  destruct (pendingOperations s !! parenLevel s) as [[|top rest]|] eqn:Hlevel;
    simpl in *.
  - exists [], []. by rewrite push_data_nil.
  - destruct (pop_higher_spec (priority op) (top :: rest) Hstack)
      as (emitted & kept & Hpop & Hsplit & Hem & Hkept).
    exists emitted, kept. split_and!; try done.
    simpl in Hpop. by rewrite Hpop.
  - exists [], []. by rewrite push_data_nil.
Qed.

(** C4. An operator token on a level whose stack holds operators:
    the operators at the top of the stack whose priority is strictly above the
    token's are emitted to the postfix data in the order they are popped, up
    to the first one whose priority is not above it, and the token is pushed
    on what is left; on an empty (or missing) stack the token is pushed and
    nothing is emitted.  An operator of the same priority at the top is
    therefore kept, and [a&b&c] compiles to a b c & &. *)
Theorem operator_token_scan (s : scanner) (token : string) (op : operator) :
  operators token = Some op →
  let stack := default [] (pendingOperations s !! parenLevel s) in
  Forall (λ t, is_Some (operators t)) stack →
  (∃ emitted kept,
      stack = emitted ++ kept
      ∧ Forall (λ t, ∃ o, operators t = Some o ∧ priority o > priority op) emitted
      ∧ match kept with
        | [] => True
        | top :: _ => ∃ o, operators top = Some o ∧ priority o ≤ priority op
        end
      ∧ scan_token s token
        = Returns {| rpn := push_data (rpn s) emitted;
                     pendingOperations :=
                       <[parenLevel s := token :: kept]> (pendingOperations s);
                     parenLevel := parenLevel s |})
  ∧ (stack = [] →
     scan_token s token
     = Returns {| rpn := rpn s;
                  pendingOperations := <[parenLevel s := [token]]> (pendingOperations s);
                  parenLevel := parenLevel s |})
  ∧ (∀ top rest o,
       stack = top :: rest → operators top = Some o → priority o ≤ priority op →
       scan_token s token
       = Returns {| rpn := rpn s;
                    pendingOperations :=
                      <[parenLevel s := token :: top :: rest]> (pendingOperations s);
                    parenLevel := parenLevel s |})
  ∧ (data <$> generateRPN "a&b&c")
    = Returns ["var1"; "var2"; "var3"; "&"; "&"].
Proof.
  intros Hop stack Hstack.
  destruct (operators_not_paren _ _ Hop) as [Hopen Hclose].
  assert (Hempty : stack = [] →
     scan_token s token
     = Returns {| rpn := rpn s;
                  pendingOperations := <[parenLevel s := [token]]> (pendingOperations s);
                  parenLevel := parenLevel s |}).
  { unfold stack, scan_token. intros Hnil.
    rewrite !decide_False, Hop by done.
    destruct (pendingOperations s !! parenLevel s) as [[|]|]; simpl in *; done. }
  pose proof (scan_operator s token op Hop Hstack) as Hgen. fold stack in Hgen.
  split; [exact Hgen|]. split; [exact Hempty|].
  split; [|vm_compute; reflexivity].
  intros top rest o Htop Ho Hle.
  destruct Hgen as (emitted & kept & Hsplit & Hem & _ & ->).
  destruct emitted as [|e emitted].
  - simpl in Hsplit. rewrite push_data_nil. by rewrite <- Hsplit, Htop.
  - rewrite Htop in Hsplit. simplify_eq/=.
    apply Forall_cons_1 in Hem as [(o' & Ho' & Hgt) _]. simplify_eq.
Qed.

Lemma operator_token_scan_witness :
  ∃ s', scan_token {| rpn := rpn scan_start;
                      pendingOperations := {[ 0 := ["&"; "|"] ]};
                      parenLevel := 0 |} ">" = Returns s'
        ∧ data (rpn s') = ["&"; "|"]
        ∧ pendingOperations s' !! 0 = Some [">"].
Proof.
  destruct (operator_token_scan
              {| rpn := rpn scan_start;
                 pendingOperations := {[ 0 := ["&"; "|"] ]};
                 parenLevel := 0 |} ">" {| priority := 2; latex := "\implies{}" |})
    as [(emitted & kept & Hsplit & Hem & Hkept & Hscan) _].
  - reflexivity.
  - vm_compute. repeat constructor; by eexists.
  - eexists. split; [exact Hscan|].
    vm_compute in Hscan. simplify_eq. vm_compute. done.
Defined.

(** ** Unbalanced input *)

(** C6, as the specification states it, fails: the compilation of
    [(p&q] throws nothing. *)
Lemma unmatched_open_not_reported :
  ¬ ∃ e, generateRPN "(p&q" = Throws e.
Proof. intros [e He]. vm_compute in He. discriminate. Qed.

(** C6, amended.  The compiler has no check of the parentheses: the
    compilation of [(p&q] returns, with the postfix program p q & and the
    mappings of p and q, which is the very result of compiling [p&q]. *)
Theorem unmatched_open_returns :
  ∃ r, generateRPN "(p&q" = Returns r
     ∧ data r = ["var1"; "var2"; "&"]
     ∧ display r <$> data r = ["p"; "q"; "&"]
     ∧ generateRPN "p&q" = Returns r.
Proof. eexists. split; [vm_compute; reflexivity|]. vm_compute. done. Qed.

(** ** The operators of the numeric pass *)

(** C7. On operands 0 and 1, with the right operand on top of the
    stack and the left operand below it: [~] pushes the negation of its
    operand, [&], [|] and [^] the bitwise and, or and exclusive or of the two
    operands, [>] pushes 0 exactly when the left operand is 1 and the right
    one 0, and 1 otherwise, and [<] pushes 1 exactly when the two operands
    are equal, and 0 otherwise.  The value pushed is the cell of
    the row, and the operands are taken off the stack. *)
Theorem operator_semantics (values : list Z) (lhs rhs : Z) (stack : list (option Z)) :
  lhs = 0 ∨ lhs = 1 → rhs = 0 ∨ rhs = 1 →
  let result token operands := numeric_step values (Symbol token) (operands ++ stack) in
  let pushes value := (Some value, Some value :: stack) in
  result "~" [Some rhs] = pushes (if decide (rhs = 0) then 1 else 0)
  ∧ result "&" [Some rhs; Some lhs] = pushes (Z.land lhs rhs)
  ∧ result "|" [Some rhs; Some lhs] = pushes (Z.lor lhs rhs)
  ∧ result "^" [Some rhs; Some lhs] = pushes (Z.lxor lhs rhs)
  ∧ result ">" [Some rhs; Some lhs] = pushes (if decide (lhs = 1 ∧ rhs = 0) then 0 else 1)
  ∧ result "<" [Some rhs; Some lhs] = pushes (if decide (lhs = rhs) then 1 else 0).
Proof.
  intros [-> | ->] [-> | ->]; cbv zeta; repeat split; reflexivity.
Qed.

Lemma operator_semantics_witness :
  numeric_step [] (Symbol ">") [Some 0; Some 1] = (Some 0, [Some 0])
  ∧ numeric_step [] (Symbol ">") [Some 1; Some 0] = (Some 1, [Some 1]).
Proof.
  split.
  - exact (proj1 (proj2 (proj2 (proj2 (proj2
      (operator_semantics [] 1 0 [] (or_intror eq_refl) (or_introl eq_refl))))))).
  - exact (proj1 (proj2 (proj2 (proj2 (proj2
      (operator_semantics [] 0 1 [] (or_introl eq_refl) (or_intror eq_refl))))))).
Defined.

(** ** Objects *)

Lemma prop_get_None o key : prop_get o key = None ↔ key ∉ o.*1.
Proof.
  induction o as [|[k v] o IH]; simpl.
  - split; [intros _; apply not_elem_of_nil|done].
  - case_decide as Hk; subst.
    + split; [done|]. intros []. left.
    + rewrite IH, not_elem_of_cons. intuition congruence.
Qed.

Lemma prop_get_Some_key o key value : prop_get o key = Some value → key ∈ o.*1.
Proof.
  intros H. destruct (decide (key ∈ o.*1)) as [|Hn]; [done|].
  apply prop_get_None in Hn. congruence.
Qed.

Lemma prop_set_fresh o key value :
  key ∉ o.*1 → prop_set o key value = o ++ [(key, value)].
Proof.
  induction o as [|[k v] o IH]; simpl; [done|].
  rewrite not_elem_of_cons. intros [Hne Hnot].
  rewrite decide_False by done. by rewrite IH.
Qed.

Lemma prop_get_app o1 o2 key :
  prop_get (o1 ++ o2) key
  = match prop_get o1 key with Some v => Some v | None => prop_get o2 key end.
Proof.
  induction o1 as [|[k v] o1 IH]; simpl; [done|]. by case_decide.
Qed.

Lemma prop_get_zip keys values key value :
  NoDup keys → length keys = length values →
  prop_get (zip keys values) key = Some value
  ↔ ∃ i, keys !! i = Some key ∧ values !! i = Some value.
Proof.
  intros Hnd. revert values.
  induction Hnd as [|k keys Hk Hnd IH]; intros [|v values] Hlen; simplify_eq/=.
  - split; [done|]. by intros [i [? _]].
  - case_decide as Heq; subst.
    + split.
      * intros [= ->]. by exists 0%nat.
      * intros [[|i] [H1 H2]]; simplify_eq/=; [done|].
        destruct Hk. by eapply list_elem_of_lookup_2.
    + rewrite IH by done. split.
      * intros (i & H1 & H2). by exists (S i).
      * intros ([|i] & H1 & H2); simplify_eq/=. by exists i.
Qed.

(** ** Code names *)

Lemma codeVar_unfold count :
  codeVar count = String "v" (String "a" (String "r" (pretty count))).
Proof. reflexivity. Qed.

Global Instance codeVar_inj : Inj (=) (=) codeVar.
Proof.
  intros a b H. rewrite !codeVar_unfold in H.
  injection H as H. by apply (inj pretty).
Qed.

Lemma codeVar_not_operator count : operators (codeVar count) = None.
Proof.
  rewrite codeVar_unfold. unfold operators.
  by rewrite !decide_False by discriminate.
Qed.

Lemma codeVar_not_seq count start len :
  (start + len ≤ count)%nat → codeVar count ∉ codeVar <$> seq start len.
Proof.
  intros Hle [k [Heq Hin]]%list_elem_of_fmap.
  apply (inj codeVar) in Heq. subst. apply elem_of_seq in Hin. lia.
Qed.

(** ** The variables of a proposition *)

Lemma first_occurrences_snoc items x :
  first_occurrences (items ++ [x])
  = if decide (x ∈ first_occurrences items) then first_occurrences items
    else first_occurrences items ++ [x].
Proof. unfold first_occurrences. by rewrite foldl_app. Qed.

Lemma first_occurrences_NoDup items : NoDup (first_occurrences items).
Proof.
  induction items as [|x items IH] using rev_ind; [constructor|].
  rewrite first_occurrences_snoc. case_decide; [done|].
  apply NoDup_app. split_and!; [done| |apply NoDup_singleton].
  intros y Hy ->%list_elem_of_singleton. done.
Qed.

Lemma first_occurrences_elem items x : x ∈ first_occurrences items ↔ x ∈ items.
Proof.
  induction items as [|y items IH] using rev_ind; [done|].
  rewrite first_occurrences_snoc, elem_of_app, list_elem_of_singleton.
  case_decide as Hy.
  - split; [rewrite IH; by left|]. intros [?| ->]; [by apply IH|done].
  - rewrite elem_of_app, list_elem_of_singleton, IH. done.
Qed.

Lemma variables_snoc tokens token :
  variables (tokens ++ [token])
  = if decide (is_variable token ∧ token ∉ variables tokens)
    then variables tokens ++ [token] else variables tokens.
Proof.
  unfold variables. rewrite filter_app, filter_cons, filter_nil.
  destruct (decide (is_variable token)) as [Hv|Hv].
  - rewrite first_occurrences_snoc.
    repeat case_decide; intuition congruence.
  - rewrite app_nil_r. rewrite decide_False by (by intros [? _]). done.
Qed.

Lemma variables_NoDup tokens : NoDup (variables tokens).
Proof. apply first_occurrences_NoDup. Qed.

Lemma variables_elem tokens x : x ∈ variables tokens ↔ x ∈ tokens ∧ is_variable x.
Proof. unfold variables. by rewrite first_occurrences_elem, list_elem_of_filter, (comm and). Qed.

(** ** What the scan maintains *)

Lemma for_each_cons {A S : Type} (body : S → A → outcome S) x items s :
  for_each body (x :: items) s = (s' ← body s x; for_each body items s').
Proof. reflexivity. Qed.

Lemma for_each_app {A S : Type} (body : S → A → outcome S) items1 items2 s :
  for_each body (items1 ++ items2) s
  = (s' ← for_each body items1 s; for_each body items2 s').
Proof.
  revert s. induction items1 as [|x items1 IH]; intros s; simpl; [done|].
  destruct (body s x) as [s1|e]; simpl; [apply IH|done].
Qed.

Lemma for_each_invariant {A S : Type} (body : S → A → outcome S)
    (I : list A → S → Prop) :
  (∀ done s x s', I done s → body s x = Returns s' → I (done ++ [x]) s') →
  ∀ items done s s',
    I done s → for_each body items s = Returns s' → I (done ++ items) s'.
Proof.
  intros Hstep items.
  induction items as [|x items IH]; intros done s s' HI Hrun; simpl in *.
  - rewrite app_nil_r. congruence.
  - destruct (body s x) as [s1|e] eqn:Hbody; simpl in Hrun; [|done].
    rewrite cons_middle, app_assoc. eapply IH; [|done]. by eapply Hstep.
Qed.

Lemma operators_not_variable token :
  is_Some (operators token) → ¬ is_variable token.
Proof. intros [op Hop] (_ & _ & Hnone). congruence. Qed.

Lemma filter_variable_snoc tokens token :
  filter is_variable (tokens ++ [token])
  = if decide (is_variable token) then filter is_variable tokens ++ [token]
    else filter is_variable tokens.
Proof.
  rewrite filter_app, filter_cons, filter_nil.
  case_decide; [done|apply app_nil_r].
Qed.

Lemma scanned_start : scanned [] scan_start.
Proof.
  split; try done.
  intros level stack. unfold scan_start. simpl.
  intros [_ <-]%lookup_singleton_Some. constructor.
Qed.

Lemma codeVars_NoDup len : NoDup (codeVar <$> seq 1 len).
Proof. apply (NoDup_fmap_2 _), NoDup_seq. Qed.

Lemma codeToMathVars_operator tokens s token :
  scanned tokens s → is_Some (operators token) →
  prop_get (codeToMathVars (rpn s)) token = None.
Proof.
  intros Hs [op Hop]. apply prop_get_None.
  rewrite (scanned_codeToMathVars _ _ Hs), fst_zip
    by (by rewrite length_fmap, length_seq).
  intros [k [-> _]]%list_elem_of_fmap.
  by rewrite codeVar_not_operator in Hop.
Qed.

Lemma omap_operators tokens s emitted :
  scanned tokens s → Forall (λ t, is_Some (operators t)) emitted →
  omap (prop_get (codeToMathVars (rpn s))) emitted = [].
Proof.
  intros Hs. induction 1 as [|t emitted Ht _ IH]; simpl; [done|].
  by rewrite (codeToMathVars_operator _ _ _ Hs Ht).
Qed.

(** Emitting operators keeps the state of the scan. *)
Lemma scanned_push tokens s emitted pending level :
  scanned tokens s →
  Forall (λ t, is_Some (operators t)) emitted →
  (∀ level stack, pending !! level = Some stack →
                  Forall (λ t, is_Some (operators t)) stack) →
  scanned tokens {| rpn := push_data (rpn s) emitted;
                    pendingOperations := pending;
                    parenLevel := level |}.
Proof.
  intros Hs Hem Hpend.
  pose proof (omap_operators _ _ _ Hs Hem) as Homap.
  destruct Hs as [Hc Hcv Hm Hcm Hd Ho Hp].
  split; simpl; try done.
  - apply Forall_app. split; [done|].
    eapply Forall_impl; [exact Hem|]. naive_solver.
  - by rewrite omap_app, Ho, Homap, app_nil_r.
Qed.

(** A token that is no variable leaves the variables as they are. *)
Lemma scanned_skip tokens token s :
  ¬ is_variable token → scanned tokens s → scanned (tokens ++ [token]) s.
Proof.
  intros Hnv [Hc Hcv Hm Hcm Hd Ho Hp].
  assert (Hvars : variables (tokens ++ [token]) = variables tokens).
  { rewrite variables_snoc. by rewrite decide_False by (by intros [? _]). }
  split; rewrite ?Hvars; try done.
  by rewrite filter_variable_snoc, decide_False.
Qed.

Lemma scanned_emit tokens token s emitted pending level :
  ¬ is_variable token →
  scanned tokens s →
  Forall (λ t, is_Some (operators t)) emitted →
  (∀ level stack, pending !! level = Some stack →
                  Forall (λ t, is_Some (operators t)) stack) →
  scanned (tokens ++ [token])
          {| rpn := push_data (rpn s) emitted;
             pendingOperations := pending;
             parenLevel := level |}.
Proof.
  intros Hnv Hs Hem Hpend. by apply scanned_skip, scanned_push.
Qed.

Lemma pending_insert (pending : gmap Z (list string)) level stack :
  (∀ level stack, pending !! level = Some stack →
                  Forall (λ t, is_Some (operators t)) stack) →
  Forall (λ t, is_Some (operators t)) stack →
  ∀ level' stack', <[level := stack]> pending !! level' = Some stack' →
                   Forall (λ t, is_Some (operators t)) stack'.
Proof.
  intros Hp Hstack level' stack'.
  rewrite lookup_insert. case_decide; [by intros [= <-]|apply Hp].
Qed.

Lemma omap_ext_Forall {A B : Type} (f g : A → option B) (l : list A) :
  Forall (λ x, f x = g x) l → omap f l = omap g l.
Proof.
  induction 1 as [|x l Hx _ IH]; [done|]. csimpl. by rewrite Hx, IH.
Qed.

(** The first occurrence of a variable. *)
Lemma scanned_declare tokens token s r codeVar' :
  is_variable token →
  scanned tokens s →
  prop_get (mathToCodeVars (rpn s)) token = None →
  declare (rpn s) token = (r, codeVar') →
  scanned (tokens ++ [token])
          {| rpn := push_data r [codeVar'];
             pendingOperations := pendingOperations s;
             parenLevel := parenLevel s |}.
Proof.
  intros Hv [Hc Hcv Hm Hcm Hd Ho Hp] Hnone Hdecl.
  set (vars := variables tokens) in *.
  set (names := codeVar <$> seq 1 (length vars)) in *.
  assert (Hlen : length names = length vars)
    by (unfold names; by rewrite length_fmap, length_seq).
  assert (Hfresh : token ∉ vars).
  { apply prop_get_None in Hnone. by rewrite Hm, fst_zip in Hnone by lia. }
  assert (Hvars : variables (tokens ++ [token]) = vars ++ [token]).
  { rewrite variables_snoc. by rewrite decide_True. }
  assert (Hnames : codeVar <$> seq 1 (length (vars ++ [token]))
                   = names ++ [codeVar (S (length vars))]).
  { rewrite length_app. simpl. rewrite Nat.add_1_r, seq_S, fmap_app. done. }
  assert (Hnew : codeVar (S (length vars)) ∉ names).
  { apply codeVar_not_seq. lia. }
  unfold declare in Hdecl. rewrite Hc in Hdecl. fold (codeVar (S (length vars))) in Hdecl.
  injection Hdecl as <- <-. split; simpl; rewrite ?Hvars, ?Hnames.
  - rewrite length_app. simpl. lia.
  - by rewrite Hcv.
  - rewrite Hm, prop_set_fresh by (by rewrite fst_zip by lia).
    by rewrite zip_with_app by lia.
  - rewrite Hcm, prop_set_fresh by (by rewrite fst_zip by lia).
    by rewrite zip_with_app by lia.
  - apply Forall_app. split.
    + eapply Forall_impl; [exact Hd|]. simpl. intros t [Ht|Ht]; [left|by right].
      rewrite elem_of_app. by left.
    + constructor; [|constructor]. left. rewrite elem_of_app, list_elem_of_singleton. by right.
  - rewrite Hcm, prop_set_fresh by (by rewrite fst_zip by lia).
    rewrite omap_app, filter_variable_snoc, decide_True by done. f_equal.
    + rewrite <- Ho, Hcm. symmetry. apply omap_ext_Forall.
      eapply Forall_impl; [exact Hd|]. simpl. intros t Ht.
      rewrite prop_get_app.
      destruct (prop_get (zip names vars) t) eqn:Hget; [done|]. simpl.
      rewrite decide_False; [done|]. intros <-.
      destruct Ht as [Ht|Ht].
      * by rewrite Hcv in Ht.
      * rewrite codeVar_not_operator in Ht. by destruct Ht.
    + simpl. rewrite prop_get_app.
      replace (prop_get (zip names vars) (codeVar (S (length vars)))) with (@None string).
      * simpl. by rewrite decide_True.
      * symmetry. apply prop_get_None. by rewrite fst_zip by lia.
  - done.
Qed.

(** A later occurrence of a variable. *)
Lemma scanned_reuse tokens token s codeVar' :
  is_variable token →
  scanned tokens s →
  prop_get (mathToCodeVars (rpn s)) token = Some codeVar' →
  scanned (tokens ++ [token])
          {| rpn := push_data (rpn s) [codeVar'];
             pendingOperations := pendingOperations s;
             parenLevel := parenLevel s |}.
Proof.
  intros Hv [Hc Hcv Hm Hcm Hd Ho Hp] Hsome.
  set (vars := variables tokens) in *.
  set (names := codeVar <$> seq 1 (length vars)) in *.
  assert (Hlen : length names = length vars)
    by (unfold names; by rewrite length_fmap, length_seq).
  rewrite Hm in Hsome.
  apply prop_get_zip in Hsome as (i & Hi & Hni);
    [|apply variables_NoDup|done].
  assert (Hvars : variables (tokens ++ [token]) = vars).
  { rewrite variables_snoc. rewrite decide_False; [done|].
    intros [_ []]. by eapply list_elem_of_lookup_2. }
  split; simpl; rewrite ?Hvars; try done.
  - apply Forall_app. split; [done|]. constructor; [|constructor].
    left. rewrite Hcv. by eapply list_elem_of_lookup_2.
  - rewrite omap_app, Ho, filter_variable_snoc, decide_True by done. f_equal.
    simpl. rewrite Hcm.
    replace (prop_get (zip names vars) codeVar') with (Some token); [done|].
    symmetry. apply prop_get_zip; [apply codeVars_NoDup|done|by exists i].
Qed.

Lemma scan_token_scanned tokens s token s' :
  scanned tokens s → scan_token s token = Returns s' →
  scanned (tokens ++ [token]) s'.
Proof.
  intros Hs. unfold scan_token.
  pose proof (scanned_pending _ _ Hs) as Hp.
  case_decide as Hopen.
  { intros [= <-]. rewrite <- (push_data_nil (rpn s)).
    apply scanned_emit; [subst; by intros []|done|constructor|done]. }
  case_decide as Hclose.
  { destruct (pendingOperations s !! parenLevel s) as [stack|] eqn:Hstack; [|done].
    intros [= <-]. rewrite drain_all.
    apply scanned_emit; [subst; by intros (_ & [] & _)|done|by eapply Hp|].
    apply pending_insert; [done|constructor]. }
  destruct (operators token) as [op|] eqn:Hop.
  - assert (Hnv : ¬ is_variable token) by (apply operators_not_variable; by eexists).
    assert (Htok : is_Some (operators token)) by by eexists.
    destruct (pendingOperations s !! parenLevel s) as [[|top rest]|] eqn:Hstack.
    + intros [= <-]. rewrite <- (push_data_nil (rpn s)).
      apply scanned_emit; [done|done|constructor|].
      apply pending_insert; [done|by repeat constructor].
    + destruct (pop_higher_spec (priority op) (top :: rest))
        as (emitted & kept & Hpop & Hsplit & _); [by eapply Hp|].
      rewrite Hpop. simpl. intros [= <-].
      assert (Hall : Forall (λ t, is_Some (operators t)) (emitted ++ kept)).
      { rewrite <- Hsplit. by eapply Hp. }
      apply Forall_app in Hall as [Hem Hkept].
      apply scanned_emit; [done|done|done|].
      apply pending_insert; [done|by constructor].
    + intros [= <-]. rewrite <- (push_data_nil (rpn s)).
      apply scanned_emit; [done|done|constructor|].
      apply pending_insert; [done|by repeat constructor].
  - assert (Hv : is_variable token) by done.
    destruct (prop_get (mathToCodeVars (rpn s)) token) as [name|] eqn:Hget.
    + intros [= <-]. by apply scanned_reuse.
    + destruct (declare (rpn s) token) as [r name] eqn:Hdecl.
      intros [= <-]. by eapply scanned_declare.
Qed.

Lemma scan_scanned tokens s :
  for_each scan_token tokens scan_start = Returns s → scanned tokens s.
Proof.
  intros Hrun.
  apply (for_each_invariant scan_token scanned scan_token_scanned tokens [] scan_start s);
    [apply scanned_start|done].
Qed.

(** The result of a compilation is the state of the scan, the operators of
    the last level emitted. *)
Lemma generateRPN_scanned proposition r :
  generateRPN proposition = Returns r →
  ∃ pending level,
    scanned (chars (trim proposition))
            {| rpn := r; pendingOperations := pending; parenLevel := level |}.
Proof.
  unfold generateRPN.
  destruct (for_each scan_token _ scan_start) as [s|e] eqn:Hscan; [|done].
  simpl. unfold scan_end.
  destruct (pendingOperations s !! parenLevel s) as [stack|] eqn:Hstack; [|done].
  intros [= <-]. exists (pendingOperations s), (parenLevel s).
  apply scan_scanned in Hscan. rewrite drain_all.
  apply scanned_push; [done| |by apply (scanned_pending _ _ Hscan)].
  by eapply (scanned_pending _ _ Hscan).
Qed.

(** ** The variables and their identifiers *)

(** The count, the code names and the first mapping of a compilation. *)
Lemma variable_names proposition r :
  generateRPN proposition = Returns r →
  let vars := variables (chars (trim proposition)) in
  variableCount r = length vars
  ∧ codeVars r = codeVar <$> seq 1 (length vars)
  ∧ (∀ k symbol, vars !! k = Some symbol →
                 prop_get (mathToCodeVars r) symbol = Some (codeVar (S k))).
Proof.
  intros (pending & level & [Hc Hcv Hm Hcm Hd Ho Hp])%generateRPN_scanned vars.
  simpl in *. split_and!; [done|done|].
  intros k symbol Hk. rewrite Hm.
  apply prop_get_zip; [apply variables_NoDup|by rewrite length_fmap, length_seq|].
  exists k. split; [done|].
  rewrite list_lookup_fmap, lookup_seq_lt; [done|]. by eapply lookup_lt_Some.
Qed.

(** C8. In the result of a compilation, the distinct tokens that are
    neither operators nor parentheses are numbered from 1 in the order of their
    first occurrence: the variable at position [k] (from 0) has the code name
    [var] followed by [k + 1], and [variableCount] is their number.  The two
    mappings are inverse of each other, the first is defined on the variables
    of the input and on nothing else, the second on the code names in use
    and on nothing else, and read back through the second mapping the postfix
    data lists the occurrences of the variables in the input in order: an
    occurrence after the first has the code name of the first. *)
Theorem variable_identifiers (proposition : string) (r : RPN) :
  generateRPN proposition = Returns r →
  let tokens := chars (trim proposition) in
  let vars := variables tokens in
  NoDup vars
  ∧ (∀ symbol, symbol ∈ vars ↔ symbol ∈ tokens ∧ is_variable symbol)
  ∧ variableCount r = length vars
  ∧ codeVars r = (λ count, "var" +:+ pretty count) <$> seq 1 (length vars)
  ∧ (∀ k symbol,
       vars !! k = Some symbol →
       prop_get (mathToCodeVars r) symbol = Some ("var" +:+ pretty (S k))
       ∧ prop_get (codeToMathVars r) ("var" +:+ pretty (S k)) = Some symbol)
  ∧ (∀ symbol name,
       prop_get (mathToCodeVars r) symbol = Some name
       ↔ prop_get (codeToMathVars r) name = Some symbol)
  ∧ (∀ symbol, is_Some (prop_get (mathToCodeVars r) symbol) ↔ symbol ∈ vars)
  ∧ (∀ name, is_Some (prop_get (codeToMathVars r) name) ↔ name ∈ codeVars r)
  ∧ omap (prop_get (codeToMathVars r)) (data r) = filter is_variable tokens.
Proof.
  intros (pending & level & [Hc Hcv Hm Hcm Hd Ho Hp])%generateRPN_scanned tokens vars.
  simpl in *. fold tokens in Hc, Hcv, Hm, Hcm, Ho. fold vars in Hc, Hcv, Hm, Hcm.
  fold codeVar. set (names := codeVar <$> seq 1 (length vars)) in *.
  assert (Hlen : length names = length vars)
    by (unfold names; by rewrite length_fmap, length_seq).
  assert (Hnd : NoDup vars) by apply variables_NoDup.
  assert (Hnn : NoDup names) by apply codeVars_NoDup.
  assert (Hname : ∀ k symbol, vars !! k = Some symbol → names !! k = Some (codeVar (S k))).
  { intros k symbol Hk. unfold names. rewrite list_lookup_fmap, lookup_seq_lt; [done|].
    by eapply lookup_lt_Some. }
  split_and!; try done.
  - apply variables_elem.
  - intros k symbol Hk. rewrite Hm, Hcm. split.
    + apply prop_get_zip; [done|done|]. exists k. eauto.
    + apply prop_get_zip; [done|done|]. exists k. eauto.
  - intros symbol name. rewrite Hm, Hcm, !prop_get_zip by done.
    split; intros (k & ? & ?); by exists k.
  - intros symbol. rewrite Hm. split.
    + intros [name Hget]. apply prop_get_Some_key in Hget.
      by rewrite fst_zip in Hget by lia.
    + intros [k Hk]%list_elem_of_lookup_1. exists (codeVar (S k)).
      apply prop_get_zip; [done|done|]. exists k. eauto.
  - intros name. rewrite Hcm, Hcv. split.
    + intros [symbol Hget]. apply prop_get_Some_key in Hget.
      by rewrite fst_zip in Hget by lia.
    + intros [k Hk]%list_elem_of_lookup_1.
      destruct (lookup_lt_is_Some_2 vars k) as [symbol Hsym].
      { rewrite <- Hlen. by eapply lookup_lt_Some. }
      exists symbol. apply prop_get_zip; [done|done|]. exists k. eauto.
Qed.

Lemma variable_identifiers_witness :
  ∃ r, generateRPN "q|p&q" = Returns r
     ∧ codeVars r = ["var1"; "var2"]
     ∧ prop_get (mathToCodeVars r) "q" = Some "var1"
     ∧ prop_get (codeToMathVars r) "var2" = Some "p"
     ∧ omap (prop_get (codeToMathVars r)) (data r) = ["q"; "p"; "q"].
Proof.
  destruct (generateRPN "q|p&q") as [r|e] eqn:Hgen; [|vm_compute in Hgen; discriminate].
  exists r. split; [done|].
  destruct (variable_identifiers "q|p&q" r Hgen)
    as (_ & _ & _ & Hnames & Hk & _ & _ & _ & Hocc).
  split; [exact Hnames|].
  split; [exact (proj1 (Hk 0%nat "q" eq_refl))|].
  split; [exact (proj2 (Hk 1%nat "p" eq_refl))|exact Hocc].
Defined.

(** ** Postfix programs *)

Lemma generateRPN_postfix_program proposition r :
  generateRPN proposition = Returns r → postfix_program r.
Proof.
  intros (pending & level & [Hc Hcv Hm Hcm Hd Ho Hp])%generateRPN_scanned.
  simpl in *. split_and!; [done| |].
  - rewrite Hcv. apply Forall_fmap, Forall_forall. intros k _. apply codeVar_not_operator.
  - rewrite Hcv, Hc, length_fmap, length_seq. done.
Qed.

Lemma operators_cases token op :
  operators token = Some op →
  token = "~" ∨ token = "&" ∨ token = "|" ∨ token = "^" ∨ token = ">" ∨ token = "<".
Proof. unfold operators. repeat case_decide; naive_solver. Qed.

Lemma convert_code_name r token :
  token ∈ codeVars r →
  ∃ i, convert r token = Index i ∧ (i < length (codeVars r))%nat.
Proof.
  intros Hin. unfold convert.
  destruct (list_find (λ v, v = token) (codeVars r)) as [[i v]|] eqn:Hfind.
  - exists i. split; [done|].
    apply list_find_Some in Hfind as (Hi & _). by eapply lookup_lt_Some.
  - apply list_find_None in Hfind. rewrite Forall_forall in Hfind.
    by destruct (Hfind token Hin).
Qed.

Lemma convert_other r token :
  token ∉ codeVars r → convert r token = Symbol token.
Proof.
  intros Hnot. unfold convert.
  destruct (list_find (λ v, v = token) (codeVars r)) as [[i v]|] eqn:Hfind; [|done].
  apply list_find_Some in Hfind as (Hi & -> & _).
  destruct Hnot. by eapply list_elem_of_lookup_2.
Qed.

Lemma convert_index r token i :
  convert r token = Index i → (i < length (codeVars r))%nat.
Proof.
  unfold convert.
  destruct (list_find (λ v, v = token) (codeVars r)) as [[j v]|] eqn:Hfind; [|done].
  intros [= <-]. apply list_find_Some in Hfind as (Hi & _). by eapply lookup_lt_Some.
Qed.

Lemma replay_app {T V O : Type} (step : T → list V → option O * list V)
    tokens1 tokens2 stack :
  replay step (tokens1 ++ tokens2) stack
  = let '(outs1, stack1) := replay step tokens1 stack in
    let '(outs2, stack2) := replay step tokens2 stack1 in
    (outs1 ++ outs2, stack2).
Proof.
  revert stack. induction tokens1 as [|t tokens1 IH]; intros stack; simpl.
  - by destruct (replay step tokens2 stack).
  - destruct (step t stack) as [out stack1]. rewrite IH.
    destruct (replay step tokens1 stack1) as [outs1 stack1'].
    by destruct (replay step tokens2 stack1').
Qed.

(** ** The values of the numeric pass *)

Lemma Number_binary b : binary (Number b).
Proof. destruct b; [by right|by left]. Qed.

Lemma pop_binary stack :
  Forall binary_item stack →
  ((pop stack).1 = None ∨ binary_item (pop stack).1) ∧ Forall binary_item (pop stack).2.
Proof.
  destruct 1 as [|top rest Htop Hrest]; simpl; [by split; [left|]|].
  split; [by right|done].
Qed.

(** A step of the numeric pass on a stack of zeros and ones leaves such a
    stack, and the value it adds to the row is a zero or a one. *)
Lemma numeric_step_binary values token stack :
  Forall binary values →
  (∀ i, token = Index i → (i < length values)%nat) →
  Forall binary_item stack →
  (∀ v, (numeric_step values token stack).1 = Some v → binary v)
  ∧ Forall binary_item (numeric_step values token stack).2.
Proof.
  intros Hvalues Hindex Hstack. destruct token as [i|s]; simpl.
  - split; [done|]. constructor; [|done].
    destruct (lookup_lt_is_Some_2 values i) as [v Hv]; [by apply Hindex|].
    rewrite Hv. rewrite Forall_forall in Hvalues.
    destruct (Hvalues v) as [-> | ->]; [by eapply list_elem_of_lookup_2|by left|by right].
  - destruct (pop_binary stack Hstack) as [H1 Hrest1].
    destruct (pop stack) as [x stack1] eqn:Hpop1. simpl in *.
    destruct (pop_binary stack1 Hrest1) as [H2 Hrest2].
    destruct (pop stack1) as [y stack2] eqn:Hpop2. simpl in *.
    assert (Hx : x = None ∨ x = Some 0 ∨ x = Some 1) by (unfold binary_item in H1; tauto).
    assert (Hy : y = None ∨ y = Some 0 ∨ y = Some 1) by (unfold binary_item in H2; tauto).
    assert (Hpush : ∀ v rest, binary v → Forall binary_item rest →
              (∀ v', (Some v, Some v :: rest).1 = Some v' → binary v')
              ∧ Forall binary_item (Some v, Some v :: rest).2).
    { intros v rest Hv Hrest. split; [by intros v' [= <-]|].
      constructor; [|done]. destruct Hv as [-> | ->]; [by left|by right]. }
    repeat case_decide; apply Hpush; try done;
      destruct Hx as [-> | [-> | ->]]; destruct Hy as [-> | [-> | ->]];
      vm_compute; auto.
Qed.

Lemma replay_numeric_binary values tokens stack :
  Forall binary values →
  Forall (λ token, ∀ i, token = Index i → (i < length values)%nat) tokens →
  Forall binary_item stack →
  Forall (λ cell, ∀ v, cell = Some v → binary v) (replay (numeric_step values) tokens stack).1
  ∧ Forall binary_item (replay (numeric_step values) tokens stack).2.
Proof.
  intros Hvalues Htokens. revert stack.
  induction Htokens as [|token tokens Htoken _ IH]; intros stack Hstack; simpl; [done|].
  destruct (numeric_step_binary values token stack Hvalues Htoken Hstack) as [Hcell Hnext].
  destruct (numeric_step values token stack) as [out stack1]. simpl in *.
  destruct (IH stack1 Hnext) as [Hcells Hend].
  destruct (replay (numeric_step values) tokens stack1) as [outs stack2]. simpl in *.
  split; [|done]. constructor; [|done]. intros v ->. by apply Hcell.
Qed.

(** ** The values of a run *)

Lemma div_succ (n m : nat) :
  (m ≠ 0 →
   S n `div` m = n `div` m + (if decide (S n `mod` m = 0) then 1 else 0))%nat.
Proof.
  intros Hm.
  pose proof (Nat.div_mod_eq n m) as Hn.
  pose proof (Nat.mod_upper_bound n m Hm) as Hlt.
  destruct (decide (S (n `mod` m) = m)) as [Hfull|Hpart].
  - assert (Hs : (S n = m * S (n `div` m) + 0)%nat) by lia.
    rewrite <- (Nat.mod_unique (S n) m (S (n `div` m)) 0) by lia.
    rewrite decide_True by done.
    rewrite <- (Nat.div_unique (S n) m (S (n `div` m)) 0) by lia. lia.
  - assert (Hs : (S n = m * (n `div` m) + S (n `mod` m))%nat) by lia.
    rewrite <- (Nat.mod_unique (S n) m (n `div` m) (S (n `mod` m))) by lia.
    rewrite decide_False by done.
    rewrite <- (Nat.div_unique (S n) m (n `div` m) (S (n `mod` m))) by lia. lia.
Qed.

(** Bit [k] of the next number: it flips when the next number is a
    multiple of [2 ^ k]. *)
Lemma testbit_succ (n k : nat) :
  Nat.testbit (S n) k
  = if decide (S n `mod` 2 ^ k = 0)%nat then negb (Nat.testbit n k) else Nat.testbit n k.
Proof.
  assert (Hpow : (2 ^ k ≠ 0)%nat) by (apply Nat.pow_nonzero; lia).
  rewrite !Nat.testbit_odd, !Nat.shiftr_div_pow2, div_succ by done.
  case_decide.
  - rewrite Nat.add_1_r, Nat.odd_succ. by rewrite <- Nat.negb_odd.
  - by rewrite Nat.add_0_r.
Qed.

Lemma truthy_Number b : truthy (Some (Number b)) = b.
Proof. by destruct b. Qed.

(** The loop over [i] changes item [i] and no other. *)
Lemma toggle_lookup (variableCount runNumber : nat) (indexes : list nat)
    (values : list Z) (j : nat) :
  NoDup indexes → (j < length values)%nat →
  foldl (toggle variableCount runNumber) values indexes !! j
  = if decide (j ∈ indexes ∧ runNumber `mod` 2 ^ (variableCount - j - 1) = 0)%nat
    then Some (Number (negb (truthy (values !! j))))
    else values !! j.
Proof.
  intros Hnd. revert values.
  induction Hnd as [|i indexes Hi Hnd IH]; intros values Hj; cbn [foldl].
  - rewrite decide_False; [done|]. by intros [?%elem_of_nil _].
  - unfold toggle at 2.
    destruct (decide (runNumber `mod` 2 ^ (variableCount - i - 1) = 0)%nat) as [Hmod|Hmod].
    + rewrite IH by (by rewrite length_insert).
      destruct (decide (j = i)) as [->|Hne].
      * rewrite decide_False by (by intros [? _]).
        rewrite decide_True by (split; [left|done]).
        by rewrite list_lookup_insert_eq.
      * rewrite !list_lookup_insert_ne by done.
        apply decide_ext. rewrite elem_of_cons. intuition congruence.
    + rewrite IH by done. apply decide_ext. rewrite elem_of_cons.
      intuition congruence.
Qed.

Lemma toggle_length (variableCount runNumber : nat) (indexes : list nat) (values : list Z) :
  length (foldl (toggle variableCount runNumber) values indexes) = length values.
Proof.
  revert values. induction indexes as [|i indexes IH]; intros values; cbn [foldl]; [done|].
  rewrite IH. unfold toggle. case_decide; [apply length_insert|done].
Qed.

Lemma next_values_length variableCount runNumber values :
  length (next_values variableCount runNumber values) = length values.
Proof. apply toggle_length. Qed.

Lemma next_values_lookup variableCount runNumber values i :
  length values = variableCount → (i < variableCount)%nat →
  next_values variableCount runNumber values !! i
  = if decide (runNumber `mod` 2 ^ (variableCount - i - 1) = 0)%nat
    then Some (Number (negb (truthy (values !! i))))
    else values !! i.
Proof.
  intros Hlen Hi. unfold next_values.
  rewrite toggle_lookup by (apply NoDup_seq || lia).
  apply decide_ext. rewrite elem_of_seq. split; [by intros [_ ?]|]. intros ?. split; [lia|done].
Qed.

Lemma assignment_length variableCount runNumber :
  length (assignment variableCount runNumber) = variableCount.
Proof. unfold assignment. by rewrite length_fmap, length_seq. Qed.

Lemma assignment_lookup variableCount runNumber i :
  (i < variableCount)%nat →
  assignment variableCount runNumber !! i = Some (value_at variableCount runNumber i).
Proof.
  intros Hi. unfold assignment. by rewrite list_lookup_fmap, lookup_seq_lt.
Qed.

(** The toggles of a run give the complement of the bits of its
    number. *)
Lemma next_values_assignment variableCount runNumber :
  next_values variableCount runNumber (values_before variableCount runNumber)
  = assignment variableCount runNumber.
Proof.
  assert (Hlen : length (values_before variableCount runNumber) = variableCount).
  { destruct runNumber; simpl; [apply length_replicate|apply assignment_length]. }
  apply list_eq. intros i.
  destruct (decide (i < variableCount)%nat) as [Hi|Hi].
  - rewrite next_values_lookup, assignment_lookup by done.
    destruct runNumber as [|previous]; cbn [values_before].
    + rewrite Nat.Div0.mod_0_l, decide_True by done.
      rewrite lookup_replicate_2 by done. unfold value_at. by rewrite Nat.bits_0.
    + rewrite assignment_lookup by done. unfold value_at.
      rewrite testbit_succ. case_decide; [|done].
      by rewrite truthy_Number.
  - rewrite !lookup_ge_None_2; [done| |].
    + rewrite assignment_length. lia.
    + rewrite next_values_length, Hlen. lia.
Qed.

Lemma runs_from_seq r start len :
  runs_from (variableCount r) (convert r <$> data r) (seq start len)
            (values_before (variableCount r) start)
  = run_of r <$> seq start len.
Proof.
  revert start. induction len as [|len IH]; intros start; simpl; [done|].
  rewrite next_values_assignment. f_equal. apply (IH (S start)).
Qed.

(** The runs, in closed form. *)
Lemma runs_run_of r : runs r = run_of r <$> seq 0 (2 ^ variableCount r).
Proof. apply (runs_from_seq r 0). Qed.

(** ** The runs cover the assignments *)

Lemma run_number_snoc values value :
  run_number (values ++ [value])
  = (2 * run_number values + Nat.b2n (negb (truthy (Some value))))%nat.
Proof. unfold run_number. by rewrite foldl_app. Qed.

Lemma run_number_bound values : (run_number values < 2 ^ length values)%nat.
Proof.
  induction values as [|value values IH] using rev_ind; [cbv; lia|].
  rewrite run_number_snoc, length_app. cbn [length].
  rewrite Nat.add_1_r, Nat.pow_succ_r'.
  destruct (negb (truthy (Some value))); cbn [Nat.b2n]; lia.
Qed.

Lemma assignment_double variableCount number (bit : bool) :
  assignment (S variableCount) (2 * number + Nat.b2n bit)
  = assignment variableCount number ++ [Number (negb bit)].
Proof.
  unfold assignment. rewrite seq_S, fmap_app. f_equal.
  - apply Forall_fmap_ext_1, Forall_forall. intros i Hi%elem_of_seq.
    unfold value_at.
    replace (S variableCount - i - 1)%nat with (S (variableCount - i - 1)) by lia.
    by rewrite Nat.testbit_succ_r.
  - rewrite list_fmap_singleton. unfold value_at.
    replace (S variableCount - (0 + variableCount) - 1)%nat with 0%nat by lia.
    by rewrite Nat.testbit_0_r.
Qed.

Lemma assignment_run_number values :
  Forall binary values → assignment (length values) (run_number values) = values.
Proof.
  induction values as [|value values IH] using rev_ind; intros Hvalues; [done|].
  apply Forall_app in Hvalues as [Hvalues Hvalue].
  apply Forall_inv in Hvalue.
  rewrite run_number_snoc, length_app. cbn [length].
  rewrite Nat.add_1_r, assignment_double, IH by done.
  f_equal. by destruct Hvalue as [-> | ->].
Qed.

Lemma assignment_inj variableCount number1 number2 :
  (number1 < 2 ^ variableCount)%nat → (number2 < 2 ^ variableCount)%nat →
  assignment variableCount number1 = assignment variableCount number2 →
  number1 = number2.
Proof.
  revert number1 number2.
  induction variableCount as [|variableCount IH]; intros number1 number2 H1 H2 Heq.
  - simpl in *. lia.
  - rewrite Nat.pow_succ_r' in H1, H2.
    rewrite (Nat.div2_odd number1), (Nat.div2_odd number2) in Heq |- *.
    rewrite !assignment_double in Heq.
    apply app_inj_tail in Heq as [Heq Hbit].
    pose proof (Nat.div2_odd number1) as Hd1.
    pose proof (Nat.div2_odd number2) as Hd2.
    rewrite (IH (Nat.div2 number1) (Nat.div2 number2)); [|  | |done].
    + f_equal. by destruct (Nat.odd number1), (Nat.odd number2).
    + destruct (Nat.odd number1); simpl in Hd1; lia.
    + destruct (Nat.odd number2); simpl in Hd2; lia.
Qed.

Lemma assignment_first variableCount :
  assignment variableCount 0 = replicate variableCount 1.
Proof.
  apply list_eq. intros i. destruct (decide (i < variableCount)%nat).
  - rewrite assignment_lookup, lookup_replicate_2 by done.
    unfold value_at. by rewrite Nat.bits_0.
  - rewrite !lookup_ge_None_2; [done|rewrite length_replicate; lia|].
    rewrite assignment_length. lia.
Qed.

Lemma assignment_last variableCount :
  assignment variableCount (2 ^ variableCount - 1) = replicate variableCount 0.
Proof.
  apply list_eq. intros i. destruct (decide (i < variableCount)%nat).
  - rewrite assignment_lookup, lookup_replicate_2 by done.
    unfold value_at. rewrite Nat.sub_1_r, <- Nat.ones_equiv.
    by rewrite Nat.ones_spec_low by lia.
  - rewrite !lookup_ge_None_2; [done|rewrite length_replicate; lia|].
    rewrite assignment_length. lia.
Qed.

Lemma runs_lookup r runNumber run :
  runs r !! runNumber = Some run
  ↔ (runNumber < 2 ^ variableCount r)%nat ∧ run = run_of r runNumber.
Proof.
  rewrite runs_run_of, list_lookup_fmap. split.
  - destruct (seq 0 (2 ^ variableCount r) !! runNumber) as [n|] eqn:Hn; [|done].
    apply lookup_seq in Hn as [-> Hlt]. by intros [= <-].
  - intros [Hlt ->]. by rewrite lookup_seq_lt.
Qed.

Lemma convert_lookup r i name :
  NoDup (codeVars r) → codeVars r !! i = Some name → convert r name = Index i.
Proof.
  intros Hnd Hi. unfold convert.
  replace (list_find (λ v, v = name) (codeVars r)) with (Some (i, name)); [done|].
  symmetry. apply list_find_Some. split_and!; [done|done|].
  intros j y Hj Hlt ->. pose proof (NoDup_lookup _ _ _ _ Hnd Hi Hj). lia.
Qed.

Lemma assignment_binary variableCount runNumber :
  Forall binary (assignment variableCount runNumber).
Proof. apply Forall_fmap, Forall_forall. intros i _. apply Number_binary. Qed.

Lemma converted_indexes r :
  Forall (λ token, ∀ i, token = Index i → (i < length (codeVars r))%nat)
         (convert r <$> data r).
Proof.
  apply Forall_fmap, Forall_forall. intros token _ i. apply convert_index.
Qed.

(** ** The rows of the table *)

Lemma append_assoc (a b c : string) : (a +:+ b) +:+ c = a +:+ b +:+ c.
Proof.
  induction a as [|x a IH]; [done|].
  change (String x ((a +:+ b) +:+ c) = String x (a +:+ b +:+ c)). by rewrite IH.
Qed.

Lemma join_comma_separated items : join "," (Some <$> items) = comma_separated items.
Proof.
  induction items as [|item [|item' rest] IH]; [done|done|].
  change (join "," (Some <$> item :: item' :: rest))
    with (item +:+ "," +:+ join "," (Some <$> item' :: rest)).
  by rewrite IH.
Qed.

Lemma intToChar_Number b : intToChar (Number b) = Some (letter b).
Proof. by destruct b. Qed.

Lemma assignment_letters N runNumber :
  join "," (intToChar <$> assignment N runNumber) = assignment_text N runNumber.
Proof.
  unfold assignment, assignment_text.
  rewrite <- join_comma_separated, <- !list_fmap_compose. f_equal.
  apply list_fmap_ext. intros _ i _. apply intToChar_Number.
Qed.

Lemma cells_text_line cells :
  Forall (λ cell, ∀ v, cell = Some v → binary v) cells →
  concat_text cell_text cells = cells_line cells.
Proof.
  unfold cells_line. induction 1 as [|[v|] cells Hv _ IH]; [done| |done].
  change (omap id (Some v :: cells)) with (v :: omap id cells).
  rewrite fmap_cons. cbn [concat_text text_of]. rewrite IH. f_equal.
  by destruct (Hv v eq_refl) as [-> | ->].
Qed.

Lemma concat_text_fmap {A B : Type} (f : A → B) (text : B → string) items :
  concat_text text (f <$> items) = text_of ((λ x, text (f x)) <$> items).
Proof.
  induction items as [|x items IH]; [done|].
  rewrite !fmap_cons. cbn [concat_text text_of]. by rewrite IH.
Qed.

(** The text of the row of a run: the letters of its assignment, and a
    letter for every cell. *)
Lemma row_text_line r runNumber :
  (length (codeVars r) ≤ variableCount r)%nat →
  row_text (run_of r runNumber)
  = row_line (variableCount r) runNumber (run_cells (run_of r runNumber)).
Proof.
  intros Hlen. unfold row_text, row_line. cbn [run_values run_of].
  rewrite assignment_letters. do 3 f_equal. apply cells_text_line. cbn [run_cells].
  apply replay_numeric_binary; [apply assignment_binary| |constructor].
  eapply Forall_impl; [apply converted_indexes|]. simpl. intros token Htoken i Hi.
  rewrite assignment_length. specialize (Htoken i Hi). lia.
Qed.

(** The table is its head and, on a line each, the rows of the runs. *)
Lemma table_rows r :
  (length (codeVars r) ≤ variableCount r)%nat →
  generateTruthTable r
  = table_head r
      +:+ text_of ((λ runNumber,
                      newline +:+ row_line (variableCount r) runNumber
                                           (run_cells (run_of r runNumber)))
                     <$> seq 0 (2 ^ variableCount r)).
Proof.
  intros Hlen. unfold generateTruthTable, table_head.
  rewrite runs_run_of, concat_text_fmap, !append_assoc. do 8 f_equal.
  apply list_fmap_ext. intros _ runNumber _. by rewrite row_text_line.
Qed.

(** C1. The table of a compilation with [N] distinct variables has
    [2 ^ N] runs.  In the run of number [runNumber] (from 0) the value at
    position [i] is the complement of bit [N - i - 1] of [runNumber], and that
    value is the one the numeric pass pushes for the variable at position [i]
    in the order of first occurrence.  Every assignment of zeros and ones to
    the [N] variables is the assignment of exactly one run; run 0 has
    all variables true and run [2 ^ N - 1] has them all false.  The text of
    the table is its two head lines and then, on a line each and in the
    order of the run numbers, the [2 ^ N] data rows: the row of run
    [runNumber] shows, between bars and separated by commas, [T] or [F] for
    the complement of bit [N - i - 1] of [runNumber] at position [i], and
    then the cells of the run. *)
Theorem rows_enumerate_assignments (proposition : string) (r : RPN) :
  generateRPN proposition = Returns r →
  let vars := variables (chars (trim proposition)) in
  let N := length vars in
  length (runs r) = (2 ^ N)%nat
  ∧ (∀ runNumber run,
       runs r !! runNumber = Some run →
       length (run_values run) = N
       ∧ ∀ i, (i < N)%nat →
              run_values run !! i
              = Some (Number (negb (Nat.testbit runNumber (N - i - 1)))))
  ∧ (∀ i symbol name values stack,
       vars !! i = Some symbol →
       prop_get (mathToCodeVars r) symbol = Some name →
       numeric_step values (convert r name) stack = (None, values !! i :: stack))
  ∧ (∀ values : list Z,
       length values = N → Forall binary values →
       exists! runNumber, run_values <$> runs r !! runNumber = Some values)
  ∧ run_values <$> runs r !! 0%nat = Some (replicate N 1)
  ∧ run_values <$> runs r !! (2 ^ N - 1)%nat = Some (replicate N 0)
  ∧ generateTruthTable r
    = table_head r
        +:+ text_of ((λ runNumber,
                        newline +:+ row_line N runNumber
                                             (run_cells (run_of r runNumber)))
                       <$> seq 0 (2 ^ N)).
Proof.
  intros Hgen vars N.
  destruct (variable_names proposition r Hgen) as (Hcount & Hnames & Hmap).
  fold vars in Hcount, Hnames, Hmap. fold N in Hcount, Hnames.
  assert (Hpow : (0 < 2 ^ N)%nat) by (apply Nat.neq_0_lt_0, Nat.pow_nonzero; lia).
  assert (Hrun : ∀ runNumber, (runNumber < 2 ^ N)%nat →
            run_values <$> runs r !! runNumber = Some (assignment N runNumber)).
  { intros runNumber Hlt.
    rewrite (proj2 (runs_lookup r runNumber (run_of r runNumber))); [|by rewrite Hcount].
    simpl. by rewrite Hcount. }
  split_and!.
  - by rewrite runs_run_of, length_fmap, length_seq, Hcount.
  - intros runNumber run [Hlt ->]%runs_lookup. simpl. rewrite Hcount.
    split; [apply assignment_length|]. intros i Hi. by apply assignment_lookup.
  - intros i symbol name values stack Hi Hget.
    rewrite (Hmap i symbol Hi) in Hget. injection Hget as <-.
    rewrite (convert_lookup r i); [done| |].
    + rewrite Hnames. apply codeVars_NoDup.
    + rewrite Hnames, list_lookup_fmap, lookup_seq_lt; [done|]. by eapply lookup_lt_Some.
  - intros values Hlen Hvalues. exists (run_number values). split.
    + rewrite Hrun by (rewrite <- Hlen; apply run_number_bound).
      by rewrite <- Hlen, assignment_run_number.
    + intros runNumber Hsome.
      assert (Hlt : (runNumber < 2 ^ N)%nat).
      { destruct (runs r !! runNumber) as [run|] eqn:Hlook; [|done].
        apply runs_lookup in Hlook as [Hlt _]. by rewrite Hcount in Hlt. }
      rewrite Hrun in Hsome by done. injection Hsome as Hsome.
      apply (assignment_inj N); [rewrite <- Hlen; apply run_number_bound|done|].
      by rewrite Hsome, <- Hlen, assignment_run_number.
  - by rewrite Hrun, assignment_first.
  - rewrite Hrun by lia. by rewrite assignment_last.
  - rewrite <- Hcount. apply table_rows.
    by rewrite Hnames, Hcount, length_fmap, length_seq.
Qed.

Lemma rows_enumerate_assignments_witness :
  ∃ r, generateRPN "p&q" = Returns r
     ∧ length (runs r) = 4%nat
     ∧ run_values <$> runs r !! 0%nat = Some [1; 1]
     ∧ run_values <$> runs r !! 3%nat = Some [0; 0]
     ∧ generateTruthTable r
       = "| p,q | $p\land{}q$ |" +:+ newline +:+ "|-|-|"
           +:+ newline +:+ "|T,T|T|" +:+ newline +:+ "|T,F|F|"
           +:+ newline +:+ "|F,T|F|" +:+ newline +:+ "|F,F|F|".
Proof.
  destruct (generateRPN "p&q") as [r|e] eqn:Hgen; [|vm_compute in Hgen; discriminate].
  exists r. split; [done|].
  destruct (rows_enumerate_assignments "p&q" r Hgen)
    as (Hlen & _ & _ & _ & Hfirst & Hlast & Htable).
  split; [exact Hlen|]. split; [exact Hfirst|]. split; [exact Hlast|].
  rewrite Htable. vm_compute in Hgen. injection Hgen as <-. vm_compute. reflexivity.
Defined.

Lemma intToChar_binary v : binary v → intToChar v = Some "T" ∨ intToChar v = Some "F".
Proof. intros [-> | ->]; [by right|by left]. Qed.

(** C10. In every run of the table of a postfix program, the values of
    the variables are zeros and ones, the operating stack of the numeric pass
    holds nothing but zeros and ones after any number of tokens (so every value
    pushed, a variable's or an operator's result, is a zero or a one, whether
    or not the operators find their operands), and every cell of the row, of a
    variable or of an operator, is looked up in [intToChar] at 0 or 1 and
    reads T or F. *)
Theorem numeric_values_binary (r : RPN) :
  postfix_program r →
  ∀ run, run ∈ runs r →
    Forall (λ value, value = 0 ∨ value = 1) (run_values run)
    ∧ (∀ k, Forall (λ item, item = Some 0 ∨ item = Some 1)
              (replay (numeric_step (run_values run))
                      (take k (convert r <$> data r)) []).2)
    ∧ Forall (λ cell, ∀ value, cell = Some value → value = 0 ∨ value = 1) (run_cells run)
    ∧ Forall (λ text, text = Some "T" ∨ text = Some "F") (intToChar <$> run_values run)
    ∧ Forall (λ cell, ∀ value, cell = Some value →
                intToChar value = Some "T" ∨ intToChar value = Some "F") (run_cells run).
Proof.
  intros (_ & _ & Hlen) run Hrun.
  rewrite runs_run_of in Hrun. apply list_elem_of_fmap in Hrun as (runNumber & -> & _).
  simpl.
  set (values := assignment (variableCount r) runNumber).
  assert (Hvalues : Forall binary values) by apply assignment_binary.
  assert (Htokens : Forall (λ token, ∀ i, token = Index i → (i < length values)%nat)
                           (convert r <$> data r)).
  { eapply Forall_impl; [apply converted_indexes|]. simpl. intros token Htoken i Hi.
    unfold values. rewrite assignment_length. specialize (Htoken i Hi). lia. }
  destruct (replay_numeric_binary values (convert r <$> data r) [] Hvalues Htokens)
    as [Hcells _]; [constructor|].
  split_and!; [done| |done| |].
  - intros k.
    apply (replay_numeric_binary values (take k (convert r <$> data r)) []);
      [done|by apply Forall_take|constructor].
  - apply Forall_fmap. eapply Forall_impl; [exact Hvalues|]. apply intToChar_binary.
  - eapply Forall_impl; [exact Hcells|]. simpl. intros cell Hcell v Hv.
    apply intToChar_binary. by apply Hcell.
Qed.

Lemma numeric_values_binary_witness :
  ∃ r, generateRPN "p>q" = Returns r
     ∧ ∀ run, run ∈ runs r →
         Forall (λ text, text = Some "T" ∨ text = Some "F") (intToChar <$> run_values run).
Proof.
  destruct (generateRPN "p>q") as [r|e] eqn:Hgen; [|vm_compute in Hgen; discriminate].
  exists r. split; [done|]. intros run Hrun.
  exact (proj1 (proj2 (proj2 (proj2
    (numeric_values_binary r (generateRPN_postfix_program "p>q" r Hgen) run Hrun))))).
Defined.

(** ** The two passes side by side *)






(** ** The columns and their sub-expressions *)

Lemma stack_label_text r e : to_string (stack_label r e) = label_of r e.
Proof. by destruct e. Qed.

Lemma header_step_expression r token (stack : list expression) :
  header_step r token (stack_label r <$> stack)
  = (label_of r <$> (expression_step token stack).1,
     stack_label r <$> (expression_step token stack).2).
Proof.
  unfold header_step, expression_step.
  destruct (operators token) as [op|] eqn:Hop; [|done].
  destruct (decide (token = "~")) as [->|Hnot].
  - destruct stack as [|e stack]; simpl; rewrite ?stack_label_text; done.
  - destruct stack as [|e1 [|e2 stack]]; simpl; rewrite ?stack_label_text, Hop; done.
Qed.

Lemma numeric_step_expression r values token (stack : list expression) :
  Forall binary values →
  Forall (λ name, operators name = None) (codeVars r) →
  token ∈ codeVars r ∨ is_Some (operators token) →
  numeric_step values (convert r token) (stack_value r values <$> stack)
  = ((expression_step token stack).1 ≫= stack_value r values,
     stack_value r values <$> (expression_step token stack).2).
Proof.
  intros Hvalues Hnames Htoken. rewrite Forall_forall in Hnames.
  unfold expression_step.
  destruct (operators token) as [op|] eqn:Hop.
  - rewrite convert_other by (intros Hin; apply Hnames in Hin; congruence).
    destruct (operators_cases _ _ Hop) as [-> | [-> | [-> | [-> | [-> | ->]]]]];
      destruct stack as [|e1 [|e2 stack]]; rewrite ?fmap_cons;
      unfold stack_value; simpl;
      try destruct (truth_of (leaf_value r values) e1) as [[]|];
      try destruct (truth_of (leaf_value r values) e2) as [[]|];
      reflexivity.
  - destruct Htoken as [Hin|[op' Hop']]; [|congruence].
    destruct (convert_code_name r token Hin) as (i & Hi & _).
    rewrite Hi. cbn [numeric_step fst snd mbind option_bind]. rewrite fmap_cons.
    do 2 f_equal. unfold stack_value, leaf_value. cbn [truth_of]. rewrite Hi.
    destruct (values !! i) as [v|] eqn:Hv; [|done].
    rewrite Forall_forall in Hvalues.
    by destruct (Hvalues v (list_elem_of_lookup_2 _ _ _ Hv)) as [-> | ->].
Qed.

Lemma replay_expressions r values tokens (stack : list expression) :
  Forall binary values →
  Forall (λ name, operators name = None) (codeVars r) →
  Forall (λ token, token ∈ codeVars r ∨ is_Some (operators token)) tokens →
  replay (header_step r) tokens (stack_label r <$> stack)
  = ((λ e : option expression, label_of r <$> e)
       <$> (replay expression_step tokens stack).1,
     stack_label r <$> (replay expression_step tokens stack).2)
  ∧ replay (numeric_step values) (convert r <$> tokens) (stack_value r values <$> stack)
    = ((λ e, e ≫= stack_value r values) <$> (replay expression_step tokens stack).1,
       stack_value r values <$> (replay expression_step tokens stack).2).
Proof.
  intros Hvalues Hnames Htokens. revert stack.
  induction Htokens as [|token tokens Htoken _ IH]; intros stack; [done|].
  rewrite fmap_cons. cbn [replay].
  rewrite header_step_expression,
    (numeric_step_expression r values token stack) by done.
  destruct (expression_step token stack) as [node stack1]. cbn [fst snd].
  destruct (IH stack1) as [-> ->].
  by destruct (replay expression_step tokens stack1) as [nodes stack2].
Qed.

(** In the table of any compiled proposition, well formed or not, every
    column is a sub-expression of the postfix program: its header is the
    label of the sub-expression, where an operand that the program does not
    supply reads [undefined], and its cell in a run is the truth value of the
    sub-expression under the values of the run, where such an operand counts
    as false.  The tokens that are not operators add no column. *)
Theorem columns_of_expressions (proposition : string) (r : RPN) :
  generateRPN proposition = Returns r →
  headers r = (λ e : option expression, label_of r <$> e) <$> expressions r
  ∧ ∀ run, run ∈ runs r →
      run_cells run
      = (λ e, e ≫= λ e, Number <$> truth_of (leaf_value r (run_values run)) e)
          <$> expressions r.
Proof.
  intros (Hdata & Hnames & _)%generateRPN_postfix_program.
  assert (Hreplay : ∀ values, Forall binary values →
    replay (header_step r) (data r) []
    = ((λ e : option expression, label_of r <$> e) <$> expressions r,
       stack_label r <$> (replay expression_step (data r) []).2)
    ∧ replay (numeric_step values) (convert r <$> data r) []
      = ((λ e, e ≫= stack_value r values) <$> expressions r,
         stack_value r values <$> (replay expression_step (data r) []).2)).
  { intros values Hvalues. by apply (replay_expressions r values (data r) []). }
  split.
  - unfold headers. by rewrite (proj1 (Hreplay [] ltac:(constructor))).
  - intros run Hrun. rewrite runs_run_of in Hrun.
    apply list_elem_of_fmap in Hrun as (runNumber & -> & _).
    cbn [run_cells run_values run_of].
    by rewrite (proj2 (Hreplay _ (assignment_binary _ _))).
Qed.

Lemma columns_of_expressions_witness :
  ∃ r, generateRPN "&p" = Returns r
     ∧ headers r = [None; Some "undefined\land{}p"]
     ∧ ∀ run, run ∈ runs r → run_cells run = [None; Some 0].
Proof.
  destruct (generateRPN "&p") as [r|e] eqn:Hgen; [|vm_compute in Hgen; discriminate].
  exists r. split; [done|].
  destruct (columns_of_expressions "&p" r Hgen) as [Hheaders Hcells].
  assert (Hexpressions :
    expressions r = [None; Some (Binary "&" Missing (Leaf "var1"))]).
  { vm_compute in Hgen. injection Hgen as <-. vm_compute. reflexivity. }
  split.
  - rewrite Hheaders, Hexpressions.
    vm_compute in Hgen. injection Hgen as <-. vm_compute. reflexivity.
  - intros run Hrun. rewrite (Hcells run Hrun), Hexpressions.
    cbn [fmap list_fmap mbind option_bind truth_of decide]. reflexivity.
Defined.

(** ** Well-formed propositions and the postfix invariant *)

Lemma binaries_app stack1 stack2 :
  binaries (stack1 ++ stack2) = (binaries stack1 + binaries stack2)%nat.
Proof. unfold binaries. by rewrite filter_app, length_app. Qed.

Lemma binaries_cons token stack :
  binaries (token :: stack)
  = ((if decide (token = "~") then 0 else 1) + binaries stack)%nat.
Proof.
  unfold binaries. rewrite filter_cons.
  destruct (decide (token ≠ "~")) as [Hne|Heq].
  - by rewrite decide_False.
  - rewrite decide_True; [done|]. by destruct (decide (token = "~")).
Qed.

Lemma stack_height_app program1 program2 height :
  stack_height (program1 ++ program2) height
  = stack_height program1 height ≫= stack_height program2.
Proof.
  revert height. induction program1 as [|token program1 IH]; intros height; [done|].
  simpl. repeat case_decide; simpl; auto.
Qed.

(** Operators emitted when enough operands are on the stack. *)
Lemma stack_height_operators emitted height :
  Forall (λ t, is_Some (operators t)) emitted →
  (binaries emitted + 1 ≤ height)%nat →
  stack_height emitted height = Some (height - binaries emitted)%nat.
Proof.
  intros Hem. revert height.
  induction Hem as [|token emitted Htoken _ IH]; intros height Hheight.
  - simpl. f_equal. unfold binaries. simpl. lia.
  - rewrite binaries_cons in Hheight |- *. cbn [stack_height].
    destruct (decide (token = "~")) as [->|Hne].
    + rewrite decide_True by lia. rewrite IH by lia. f_equal.
    + rewrite decide_True by done. rewrite decide_True by lia.
      rewrite IH by lia. f_equal. lia.
Qed.

Lemma stack_height_name program height name :
  operators name = None →
  stack_height program 0 = Some height →
  stack_height (program ++ [name]) 0 = Some (S height).
Proof.
  intros Hname Hheight. rewrite stack_height_app, Hheight. simpl.
  rewrite decide_False by (intros ->; discriminate).
  rewrite decide_False; [done|]. rewrite Hname. by intros [? ?].
Qed.

Lemma level_stack_operators s :
  steady s → Forall (λ t, is_Some (operators t)) (level_stack s).
Proof.
  intros Hs. unfold level_stack.
  destruct (pendingOperations s !! parenLevel s) as [stack|] eqn:Hstack; [|constructor].
  by eapply steady_pending.
Qed.

Lemma prop_get_set o key value key' :
  prop_get (prop_set o key value) key'
  = if decide (key = key') then Some value else prop_get o key'.
Proof.
  induction o as [|[k v] o IH]; simpl.
  - done.
  - destruct (decide (k = key)) as [->|Hne]; simpl.
    + by destruct (decide (key = key')).
    + rewrite IH. destruct (decide (k = key')) as [->|]; [|done].
      by rewrite decide_False.
Qed.

(** A variable token where an operand is expected. *)
Lemma scan_variable s height token :
  is_variable token → expecting s height →
  ∃ s', scan_token s token = Returns s' ∧ operand_read s height s'.
Proof.
  intros (Hopen & Hclose & Hnone) ([Hpend Habove Hnames] & Hheight & Hops).
  unfold scan_token. rewrite !decide_False, Hnone by done.
  destruct (prop_get (mathToCodeVars (rpn s)) token) as [name|] eqn:Hget.
  - eexists. split; [done|]. split; [by split|]. simpl. split_and!; [done|done|].
    exists (S height). split; [|unfold level_stack; simpl; lia].
    apply stack_height_name; [by eapply Hnames|done].
  - eexists. split; [done|]. split.
    + split; simpl; [done|done|]. intros symbol name. rewrite prop_get_set.
      case_decide; [|by apply Hnames]. intros [= <-]. apply codeVar_not_operator.
    + simpl. split_and!; [done|done|].
      exists (S height). split; [|unfold level_stack; simpl; lia].
      apply stack_height_name; [apply codeVar_not_operator|done].
Qed.

Lemma level_stack_insert s stack r :
  level_stack {| rpn := r;
                 pendingOperations := <[parenLevel s := stack]> (pendingOperations s);
                 parenLevel := parenLevel s |} = stack.
Proof. unfold level_stack. simpl. by rewrite lookup_insert_eq. Qed.

Lemma steady_insert s stack emitted :
  steady s →
  Forall (λ t, is_Some (operators t)) stack →
  steady {| rpn := push_data (rpn s) emitted;
            pendingOperations := <[parenLevel s := stack]> (pendingOperations s);
            parenLevel := parenLevel s |}.
Proof.
  intros [Hpend Habove Hnames] Hstack. split; simpl.
  - by apply pending_insert.
  - intros level Hlevel. rewrite lookup_insert_ne by lia. by apply Habove.
  - done.
Qed.

(** The token [~] where an operand is expected: it is pushed, and an
    operand is still expected. *)
Lemma scan_not s height :
  expecting s height →
  ∃ s', scan_token s "~" = Returns s'
      ∧ expecting s' height
      ∧ parenLevel s' = parenLevel s
      ∧ (∀ level, level < parenLevel s →
                  pendingOperations s' !! level = pendingOperations s !! level)
      ∧ binaries (level_stack s') = binaries (level_stack s).
Proof.
  intros (Hs & Hheight & Hops).
  pose proof (level_stack_operators s Hs) as Hstack.
  destruct (scan_operator s "~" {| priority := 5; latex := "\neg{}" |} eq_refl Hstack)
    as (emitted & kept & Hsplit & Hem & _ & Hscan).
  assert (emitted = []) as ->.
  { destruct emitted as [|top emitted]; [done|].
    apply Forall_cons_1 in Hem as [(o & Ho & Hgt) _].
    apply operators_priority in Ho. simpl in Hgt. lia. }
  simpl in Hsplit. fold (level_stack s) in Hsplit. subst kept.
  assert (Hsame : binaries ("~" :: level_stack s) = binaries (level_stack s)).
  { by rewrite binaries_cons, decide_True. }
  eexists. split; [exact Hscan|]. split; [|split_and!; simpl].
  - unfold expecting. split_and!.
    + apply steady_insert; [done|]. constructor; [by eexists|done].
    + simpl. by rewrite app_nil_r.
    + by rewrite level_stack_insert, Hsame.
  - done.
  - intros level Hlevel. by rewrite lookup_insert_ne by lia.
  - by rewrite level_stack_insert.
Qed.

(** A binary operator after an operand: the pending operators it emits
    find their operands, and an operand is expected next. *)
Lemma scan_binary s height token :
  is_binary token → steady s →
  stack_height (data (rpn s)) 0 = Some height →
  (binaries (level_stack s) + 1 ≤ height)%nat →
  ∃ s' height',
    scan_token s token = Returns s'
    ∧ expecting s' height'
    ∧ parenLevel s' = parenLevel s
    ∧ (∀ level, level < parenLevel s →
                pendingOperations s' !! level = pendingOperations s !! level)
    ∧ (height' + binaries (level_stack s) + 1 = height + binaries (level_stack s'))%nat.
Proof.
  intros [[op Hop] Hnot] Hs Hheight Hops.
  pose proof (level_stack_operators s Hs) as Hstack.
  destruct (scan_operator s token op Hop Hstack)
    as (emitted & kept & Hsplit & _ & _ & Hscan).
  fold (level_stack s) in Hsplit. rewrite Hsplit in Hstack, Hops.
  apply Forall_app in Hstack as [Hem Hkept].
  rewrite binaries_app in Hops.
  assert (Hemit : stack_height (data (rpn s) ++ emitted) 0
                  = Some (height - binaries emitted)%nat).
  { rewrite stack_height_app, Hheight. simpl. apply stack_height_operators; [done|lia]. }
  assert (Hpushed : binaries (token :: kept) = (1 + binaries kept)%nat).
  { by rewrite binaries_cons, decide_False. }
  exists {| rpn := push_data (rpn s) emitted;
            pendingOperations := <[parenLevel s := token :: kept]> (pendingOperations s);
            parenLevel := parenLevel s |}, (height - binaries emitted)%nat.
  split; [exact Hscan|]. split; [|split_and!; simpl].
  - unfold expecting. split_and!.
    + apply steady_insert; [done|]. constructor; [by eexists|done].
    + done.
    + rewrite level_stack_insert, Hpushed. lia.
  - done.
  - intros level Hlevel. by rewrite lookup_insert_ne by lia.
  - rewrite level_stack_insert, Hpushed, Hsplit, binaries_app. lia.
Qed.

(** An opening parenthesis where an operand is expected. *)
Lemma scan_open s height :
  expecting s height →
  ∃ s', scan_token s "(" = Returns s'
      ∧ expecting s' height
      ∧ parenLevel s' = parenLevel s + 1
      ∧ pendingOperations s' = pendingOperations s
      ∧ level_stack s' = [].
Proof.
  intros ([Hpend Habove Hnames] & Hheight & Hops).
  eexists. split; [done|].
  assert (Hempty : level_stack {| rpn := rpn s;
                                  pendingOperations := pendingOperations s;
                                  parenLevel := parenLevel s + 1 |} = []).
  { unfold level_stack. simpl. apply Habove. lia. }
  split; [|by split_and!].
  unfold expecting. split_and!.
  - split; simpl; [done| |done]. intros level Hlevel. apply Habove. lia.
  - done.
  - rewrite Hempty. unfold binaries. simpl. lia.
Qed.

(** A closing parenthesis after an operand, when it does not throw. *)
Lemma scan_close s height s' :
  steady s →
  stack_height (data (rpn s)) 0 = Some height →
  (binaries (level_stack s) + 1 ≤ height)%nat →
  scan_token s ")" = Returns s' →
  steady s'
  ∧ parenLevel s' = parenLevel s - 1
  ∧ (∀ level, level < parenLevel s →
              pendingOperations s' !! level = pendingOperations s !! level)
  ∧ stack_height (data (rpn s')) 0 = Some (height - binaries (level_stack s))%nat.
Proof.
  intros Hs Hheight Hops.
  pose proof (level_stack_operators s Hs) as Hstack.
  destruct Hs as [Hpend Habove Hnames].
  unfold scan_token, level_stack in *. rewrite decide_False, decide_True by done.
  destruct (pendingOperations s !! parenLevel s) as [stack|] eqn:Hlevel; [|done].
  intros [= <-]. simpl in *. rewrite drain_all. split_and!.
  - split; simpl.
    + apply pending_insert; [done|constructor].
    + intros level Hlt. destruct (decide (level = parenLevel s)) as [->|Hne].
      * by rewrite lookup_insert_eq.
      * rewrite lookup_insert_ne by done. apply Habove. lia.
    + done.
  - done.
  - intros level Hlt. by rewrite lookup_insert_ne by lia.
  - rewrite stack_height_app, Hheight. simpl. by apply stack_height_operators.
Qed.

(** The scan of a well-formed proposition where an operand is expected,
    when it does not throw, reads an operand. *)
Lemma scan_well_formed p :
  well_formed p →
  ∀ s height s',
    expecting s height → for_each scan_token p s = Returns s' →
    operand_read s height s'.
Proof.
  induction 1 as [token Hvar|p Hp IH|p op q Hop Hp IHp Hq IHq|p Hp IH];
    intros s height s' Hs Hrun.
  - destruct (scan_variable s height token Hvar Hs) as (s1 & Hscan & Hread).
    simpl in Hrun. rewrite Hscan in Hrun. simpl in Hrun. by injection Hrun as <-.
  - destruct (scan_not s height Hs) as (s1 & Hscan & Hs1 & Hlevel & Hbelow & Hsame).
    simpl in Hrun. rewrite Hscan in Hrun. simpl in Hrun.
    destruct (IH s1 height s' Hs1 Hrun) as (Hsteady & Hlevel' & Hbelow' & height' & Hh & Heq).
    split_and!; [done|congruence| |].
    + intros level Hlt. rewrite Hbelow' by lia. by apply Hbelow.
    + exists height'. split; [done|lia].
  - rewrite for_each_app in Hrun.
    destruct (for_each scan_token p s) as [s1|e] eqn:Hrun1; [|done].
    simpl in Hrun.
    destruct (IHp s height s1 Hs Hrun1)
      as (Hsteady1 & Hlevel1 & Hbelow1 & height1 & Hh1 & Heq1).
    destruct Hs as (_ & _ & Hops).
    destruct (scan_binary s1 height1 op Hop Hsteady1 Hh1)
      as (s2 & height2 & Hscan & Hs2 & Hlevel2 & Hbelow2 & Heq2); [lia|].
    rewrite Hscan in Hrun. simpl in Hrun.
    destruct (IHq s2 height2 s' Hs2 Hrun)
      as (Hsteady3 & Hlevel3 & Hbelow3 & height3 & Hh3 & Heq3).
    split_and!; [done|congruence| |].
    + intros level Hlt. rewrite Hbelow3, Hbelow2 by lia. by apply Hbelow1.
    + exists height3. split; [done|lia].
  - rewrite for_each_cons in Hrun.
    destruct (scan_open s height Hs) as (s1 & Hscan & Hs1 & Hlevel1 & Hpending1 & Hempty1).
    rewrite Hscan in Hrun. cbn [mbind outcome_bind] in Hrun. rewrite for_each_app in Hrun.
    destruct (for_each scan_token p s1) as [s2|e] eqn:Hrun2; [|done].
    cbn [mbind outcome_bind for_each] in Hrun.
    destruct (IH s1 height s2 Hs1 Hrun2)
      as (Hsteady2 & Hlevel2 & Hbelow2 & height2 & Hh2 & Heq2).
    rewrite Hempty1 in Heq2. unfold binaries at 1 in Heq2. simpl in Heq2.
    destruct (scan_token s2 ")") as [s3|e] eqn:Hclose; [|done].
    simpl in Hrun. injection Hrun as <-.
    destruct (scan_close s2 height2 s3 Hsteady2 Hh2) as (Hsteady3 & Hlevel3 & Hbelow3 & Hh3);
      [lia|done|].
    assert (Hstack : level_stack s3 = level_stack s).
    { unfold level_stack. rewrite Hlevel3, Hlevel2, Hlevel1.
      replace (parenLevel s + 1 - 1) with (parenLevel s) by lia.
      rewrite Hbelow3, Hbelow2, Hpending1 by lia. done. }
    split_and!; [done|lia| |].
    + intros level Hlt. rewrite Hbelow3, Hbelow2, Hpending1 by lia. done.
    + eexists. split; [exact Hh3|]. rewrite Hstack. lia.
Qed.

Lemma expecting_start : expecting scan_start 0.
Proof.
  split_and!; [split|done|done]; simpl.
  - intros level stack [_ <-]%lookup_singleton_Some. constructor.
  - intros level Hlevel. by rewrite lookup_singleton_ne by lia.
  - done.
Qed.

(** For a well-formed proposition, a compilation that returns gives a
    postfix program in which every operator finds its operands and one value
    is left at the end. *)
Theorem well_formed_compiles_to_postfix (proposition : string) (r : RPN) :
  well_formed (chars (trim proposition)) →
  generateRPN proposition = Returns r →
  well_formed_postfix (data r).
Proof.
  intros Hwf. unfold generateRPN.
  destruct (for_each scan_token _ scan_start) as [s|e] eqn:Hscan; [|done].
  simpl. unfold scan_end.
  destruct (scan_well_formed _ Hwf scan_start 0%nat s expecting_start Hscan)
    as (Hsteady & Hlevel & _ & height & Hheight & Heq).
  pose proof (level_stack_operators s Hsteady) as Hstack.
  assert (Hstart : binaries (level_stack scan_start) = 0%nat) by (vm_compute; reflexivity).
  rewrite Hstart in Heq.
  unfold level_stack in *.
  destruct (pendingOperations s !! parenLevel s) as [stack|] eqn:Hlookup; [|done].
  intros [= <-]. unfold well_formed_postfix. simpl in *.
  rewrite drain_all, stack_height_app, Hheight. simpl.
  rewrite stack_height_operators; [f_equal; lia|done|lia].
Qed.

Lemma well_formed_compiles_to_postfix_witness :
  ∃ r, generateRPN "~(p|q)>r" = Returns r ∧ well_formed_postfix (data r).
Proof.
  destruct (generateRPN "~(p|q)>r") as [r|e] eqn:Hgen; [|vm_compute in Hgen; discriminate].
  exists r. split; [done|].
  apply (well_formed_compiles_to_postfix "~(p|q)>r" r); [|done].
  change (well_formed (("~" :: "(" :: (["p"] ++ "|" :: ["q"]) ++ [")"]) ++ ">" :: ["r"])).
  apply wf_binary; [split; [by eexists|done]| |by apply wf_variable].
  apply wf_not, wf_parens.
  apply wf_binary; [split; [by eexists|done]| |]; by apply wf_variable.
Defined.

(** ** Propositions that compile *)

Lemma well_grouped_well_formed b p : well_grouped b p → well_formed p.
Proof. induction 1; by constructor. Qed.

(** The scan of such a proposition returns, and the stack of the level is
    stored after it if it was before or if the proposition has an operator
    at that level. *)
Lemma scan_well_grouped b p :
  well_grouped b p →
  ∀ s height,
    expecting s height →
    ∃ s', for_each scan_token p s = Returns s'
        ∧ (b = true ∨ is_Some (pendingOperations s !! parenLevel s) →
           is_Some (pendingOperations s' !! parenLevel s)).
Proof.
  induction 1 as [token Hvar|b p Hp IH|b1 b2 p op q Hop Hp IHp Hq IHq|p Hp IH];
    intros s height Hs.
  - destruct (scan_variable s height token Hvar Hs) as (s1 & Hscan & Hread).
    exists s1. rewrite for_each_cons, Hscan. split; [done|].
    intros [?|Hsome]; [done|].
    unfold scan_token in Hscan. destruct Hvar as (Hopen & Hclose & Hnone).
    rewrite !decide_False, Hnone in Hscan by done.
    destruct (prop_get (mathToCodeVars (rpn s)) token); by injection Hscan as <-.
  - destruct (scan_not s height Hs) as (s1 & Hscan & Hs1 & Hlevel & _ & _).
    destruct (IH s1 height Hs1) as (s' & Hrun & Hstored).
    exists s'. rewrite for_each_cons, Hscan. split; [done|]. intros _.
    rewrite <- Hlevel. apply Hstored. right.
    destruct Hs as (Hsteady & _ & _).
    pose proof (level_stack_operators s Hsteady) as Hstack.
    destruct (scan_operator s "~" {| priority := 5; latex := "\neg{}" |} eq_refl Hstack)
      as (emitted & kept & _ & _ & _ & Hscan').
    rewrite Hscan' in Hscan. injection Hscan as <-. simpl.
    by rewrite lookup_insert_eq.
  - destruct (IHp s height Hs) as (s1 & Hrun1 & _).
    destruct (scan_well_formed p (well_grouped_well_formed _ _ Hp) s height s1 Hs Hrun1)
      as (Hsteady1 & Hlevel1 & _ & height1 & Hh1 & Heq1).
    destruct Hs as (_ & _ & Hops).
    destruct (scan_binary s1 height1 op Hop Hsteady1 Hh1)
      as (s2 & height2 & Hscan & Hs2 & Hlevel2 & _ & _); [lia|].
    destruct (IHq s2 height2 Hs2) as (s' & Hrun2 & Hstored).
    exists s'. rewrite for_each_app, Hrun1. cbn [mbind outcome_bind].
    rewrite for_each_cons, Hscan. split; [done|]. intros _.
    rewrite <- Hlevel1, <- Hlevel2. apply Hstored. right.
    pose proof (level_stack_operators s1 Hsteady1) as Hstack.
    destruct Hop as [[o Ho] _].
    destruct (scan_operator s1 op o Ho Hstack) as (emitted & kept & _ & _ & _ & Hscan').
    rewrite Hscan' in Hscan. injection Hscan as <-. simpl.
    by rewrite lookup_insert_eq.
  - destruct (scan_open s height Hs) as (s1 & Hscan & Hs1 & Hlevel1 & Hpending1 & _).
    destruct (IH s1 height Hs1) as (s2 & Hrun2 & Hstored).
    destruct Hstored as [stack Hstack]; [by left|].
    exists {| rpn := push_data (rpn s2) (drain stack);
              pendingOperations := <[parenLevel s1 := []]> (pendingOperations s2);
              parenLevel := parenLevel s1 - 1 |}.
    destruct (scan_well_formed p (well_grouped_well_formed _ _ Hp) s1 height s2 Hs1 Hrun2)
      as (_ & Hlevel2 & Hbelow2 & _).
    rewrite for_each_cons, Hscan. cbn [mbind outcome_bind].
    rewrite for_each_app, Hrun2. cbn [mbind outcome_bind].
    rewrite for_each_cons. split.
    + replace (scan_token s2 ")")
        with (Returns {| rpn := push_data (rpn s2) (drain stack);
                         pendingOperations := <[parenLevel s1 := []]> (pendingOperations s2);
                         parenLevel := parenLevel s1 - 1 |}); [done|].
      unfold scan_token. rewrite decide_False, decide_True by done.
      by rewrite Hlevel2, Hstack.
    + intros [?|Hsome]; [done|]. simpl.
      rewrite lookup_insert_ne by lia. rewrite Hbelow2 by lia. by rewrite Hpending1.
Qed.

(** For a proposition in which every parenthesised group has an operator
    at its own level, the compilation returns, and the postfix program it
    returns is well formed. *)
Theorem well_grouped_compiles (proposition : string) (b : bool) :
  well_grouped b (chars (trim proposition)) →
  ∃ r, generateRPN proposition = Returns r ∧ well_formed_postfix (data r).
Proof.
  intros Hwg.
  destruct (scan_well_grouped b _ Hwg scan_start 0%nat expecting_start)
    as (s & Hscan & Hstored).
  destruct Hstored as [stack Hstack]; [right; by eexists|].
  destruct (scan_well_formed _ (well_grouped_well_formed _ _ Hwg)
                             scan_start 0%nat s expecting_start Hscan)
    as (Hsteady & Hlevel & _ & height & Hheight & Heq).
  assert (Hstart : binaries (level_stack scan_start) = 0%nat) by (vm_compute; reflexivity).
  rewrite Hstart in Heq.
  pose proof (level_stack_operators s Hsteady) as Hops.
  change (parenLevel scan_start) with 0 in Hstack, Hlevel.
  unfold level_stack in Heq, Hops. rewrite Hlevel, Hstack in Heq, Hops.
  simpl in Heq, Hops.
  exists (push_data (rpn s) (drain stack)). split.
  - unfold generateRPN. rewrite Hscan. cbn [mbind outcome_bind].
    unfold scan_end. by rewrite Hlevel, Hstack.
  - unfold well_formed_postfix. simpl.
    rewrite drain_all, stack_height_app, Hheight. simpl.
    rewrite stack_height_operators; [f_equal; lia|done|lia].
Qed.

Lemma well_grouped_compiles_witness :
  ∃ r, generateRPN "p&(q|~r)" = Returns r ∧ well_formed_postfix (data r).
Proof.
  apply (well_grouped_compiles "p&(q|~r)" true).
  change (well_grouped true (["p"] ++ "&" :: "(" :: (["q"] ++ "|" :: "~" :: ["r"]) ++ [")"])).
  eapply wg_binary; [split; [by eexists|done]|by apply wg_variable|].
  apply wg_parens.
  eapply wg_binary; [split; [by eexists|done]|by apply wg_variable|].
  eapply wg_not. by apply wg_variable.
Defined.

(** ** The postfix program of a parse tree *)

Lemma scanned_inverse pre s symbol name :
  scanned pre s →
  prop_get (mathToCodeVars (rpn s)) symbol = Some name
  ↔ prop_get (codeToMathVars (rpn s)) name = Some symbol.
Proof.
  intros [Hc Hcv Hm Hcm Hd Ho Hp]. rewrite Hm, Hcm.
  assert (Hlen : length (codeVar <$> seq 1 (length (variables pre)))
                 = length (variables pre)) by (by rewrite length_fmap, length_seq).
  rewrite !prop_get_zip by (done || apply variables_NoDup || apply codeVars_NoDup).
  split; intros (k & ? & ?); by exists k.
Qed.

(** A token of the scan leaves the code names given so far as they are. *)
Lemma scan_token_keeps_names pre s token s' name symbol :
  scanned pre s → scan_token s token = Returns s' →
  prop_get (codeToMathVars (rpn s)) name = Some symbol →
  prop_get (codeToMathVars (rpn s')) name = Some symbol.
Proof.
  intros Hs Hscan Hget. unfold scan_token in Hscan.
  case_decide; [by injection Hscan as <-|].
  case_decide.
  { destruct (pendingOperations s !! parenLevel s); [|done]. by injection Hscan as <-. }
  destruct (operators token) as [op|] eqn:Hop.
  - destruct (pendingOperations s !! parenLevel s) as [[|top rest]|];
      [by injection Hscan as <-| |by injection Hscan as <-].
    destruct (pop_higher (priority op) (top :: rest)) as [[emitted kept]|e]; [|done].
    by injection Hscan as <-.
  - destruct (prop_get (mathToCodeVars (rpn s)) token) as [name'|];
      injection Hscan as <-; simpl; [done|].
    rewrite prop_get_set, decide_False; [done|]. intros <-.
    apply prop_get_Some_key in Hget.
    rewrite (scanned_codeToMathVars _ _ Hs), fst_zip in Hget
      by (by rewrite length_fmap, length_seq).
    rewrite (scanned_count _ _ Hs) in Hget.
    by apply (codeVar_not_seq (S (length (variables pre))) 1 (length (variables pre))) in Hget.
Qed.

Lemma scan_keeps_names tokens pre s s' name symbol :
  scanned pre s → for_each scan_token tokens s = Returns s' →
  prop_get (codeToMathVars (rpn s)) name = Some symbol →
  prop_get (codeToMathVars (rpn s')) name = Some symbol.
Proof.
  revert pre s. induction tokens as [|token tokens IH]; intros pre s Hs Hrun Hget.
  - by injection Hrun as <-.
  - rewrite for_each_cons in Hrun.
    destruct (scan_token s token) as [s1|e] eqn:Hscan; [|done].
    apply (IH (pre ++ [token]) s1); [by eapply scan_token_scanned|done|].
    by eapply scan_token_keeps_names.
Qed.

Lemma decodes_earlier decode tokens pre s s' :
  scanned pre s → for_each scan_token tokens s = Returns s' →
  decodes decode s' → decodes decode s.
Proof.
  intros Hs Hrun [Hnames Hops]. split; [|done].
  intros name symbol Hget. apply Hnames. by eapply scan_keeps_names.
Qed.

(** The scan of a variable: its code name is added to the data, and
    nothing else changes. *)
Lemma scan_variable_name pre s token s' :
  scanned pre s → is_variable token → scan_token s token = Returns s' →
  ∃ name,
    data (rpn s') = data (rpn s) ++ [name]
    ∧ prop_get (codeToMathVars (rpn s')) name = Some token
    ∧ pendingOperations s' = pendingOperations s
    ∧ parenLevel s' = parenLevel s.
Proof.
  intros Hs (Hopen & Hclose & Hnone) Hscan. unfold scan_token in Hscan.
  rewrite !decide_False, Hnone in Hscan by done.
  destruct (prop_get (mathToCodeVars (rpn s)) token) as [name|] eqn:Hget;
    injection Hscan as <-; simpl.
  - exists name. split_and!; try done. by apply (scanned_inverse pre s).
  - eexists. split_and!; try done. by rewrite prop_get_set, decide_True.
Qed.

(** A stack splits in one way into operators above a priority and a rest
    that begins at or below it. *)
Lemma priority_split p (above rest emitted kept : list string) :
  above ++ rest = emitted ++ kept →
  Forall (λ t, p < priority_of t) above →
  Forall (λ t, priority_of t ≤ p) rest →
  Forall (λ t, ∃ o, operators t = Some o ∧ priority o > p) emitted →
  match kept with
  | [] => True
  | top :: _ => ∃ o, operators top = Some o ∧ priority o ≤ p
  end →
  emitted = above ∧ kept = rest.
Proof.
  revert emitted. induction above as [|a above IH]; intros emitted Heq Habove Hrest Hem Hkept.
  - destruct emitted as [|e emitted]; [done|]. simpl in Heq. subst rest.
    apply Forall_cons_1 in Hem as [(o & Ho & Hgt) _].
    apply Forall_cons_1 in Hrest as [Hle _].
    unfold priority_of in Hle. rewrite Ho in Hle. simpl in Hle. lia.
  - apply Forall_cons_1 in Habove as [Ha Habove].
    destruct emitted as [|e emitted].
    + simpl in Heq. subst kept. destruct Hkept as (o & Ho & Hle).
      unfold priority_of in Ha. rewrite Ho in Ha. simpl in Ha. lia.
    + simpl in Heq. injection Heq as <- Heq.
      apply Forall_cons_1 in Hem as [_ Hem].
      destruct (IH emitted Heq Habove Hrest Hem Hkept) as [-> ->]. done.
Qed.

Lemma scan_scanned_from tokens pre s s' :
  scanned pre s → for_each scan_token tokens s = Returns s' →
  scanned (pre ++ tokens) s'.
Proof.
  intros Hs Hrun.
  by apply (for_each_invariant scan_token scanned scan_token_scanned tokens pre s s').
Qed.

Lemma scanned_steady pre s : scanned pre s → above_empty s → steady s.
Proof.
  intros Hs Habove. split; [by eapply scanned_pending|done|].
  intros symbol name Hget. apply prop_get_Some_key in Hget as Hkey.
  rewrite (scanned_mathToCodeVars _ _ Hs) in Hget.
  apply prop_get_zip in Hget as (k & _ & Hname);
    [|apply variables_NoDup|by rewrite length_fmap, length_seq].
  apply list_lookup_fmap_Some in Hname as (n & -> & _). apply codeVar_not_operator.
Qed.

Lemma priority_of_operator token op :
  operators token = Some op → priority_of token = priority op.
Proof. intros Hop. unfold priority_of. by rewrite Hop. Qed.

Lemma scan_close_stack s s' :
  scan_token s ")" = Returns s' →
  ∃ stack,
    pendingOperations s !! parenLevel s = Some stack
    ∧ s' = {| rpn := push_data (rpn s) stack;
              pendingOperations := <[parenLevel s := []]> (pendingOperations s);
              parenLevel := parenLevel s - 1 |}.
Proof.
  unfold scan_token. rewrite decide_False, decide_True by done.
  destruct (pendingOperations s !! parenLevel s) as [stack|]; [|done].
  intros [= <-]. exists stack. by rewrite drain_all.
Qed.

(** The scan of the tokens of a tree that follows the priorities, begun
    on a stack whose operators are not above the loosest of the tree: when
    it does not throw, the operators it leaves pending are on top of that
    stack, and what it adds to the data, followed by them, is the postfix
    traversal of the tree. *)
Lemma scan_parse t :
  follows_priorities t →
  ∀ pre s s',
    scanned pre s → above_empty s →
    Forall (λ top, priority_of top ≤ loosest t) (level_stack s) →
    for_each scan_token (tokens_of t) s = Returns s' →
    ∃ out pend,
      data (rpn s') = data (rpn s) ++ out
      ∧ level_stack s' = pend ++ level_stack s
      ∧ Forall (λ top, loosest t ≤ priority_of top) pend
      ∧ parenLevel s' = parenLevel s
      ∧ (∀ level, level < parenLevel s →
                  pendingOperations s' !! level = pendingOperations s !! level)
      ∧ above_empty s'
      ∧ ∀ decode, decodes decode s' → decode <$> (out ++ pend) = postfix_of t.
Proof.
  induction t as [symbol|operand IH|token lhs IHl rhs IHr|inner IH];
    intros Hfollows pre s s' Hs Habove Hstack Hrun; simpl in Hfollows.
  - (* a variable *)
    cbn [tokens_of] in Hrun. rewrite for_each_cons in Hrun.
    destruct (scan_token s symbol) as [s1|e] eqn:Hscan; [|done].
    injection Hrun as <-.
    destruct (scan_variable_name pre s symbol s1 Hs Hfollows Hscan)
      as (name & Hdata & Hname & Hpending & Hlevel).
    exists [name], []. split_and!; try done.
    + unfold level_stack. by rewrite Hpending, Hlevel.
    + by rewrite Hpending.
    + unfold above_empty. by rewrite Hpending, Hlevel.
    + intros decode [Hnames _]. simpl. by rewrite (Hnames name symbol Hname).
  - (* a negation *)
    destruct Hfollows as [Hloose Hfollows].
    cbn [tokens_of] in Hrun. rewrite for_each_cons in Hrun.
    pose proof (level_stack_operators s (scanned_steady pre s Hs Habove)) as Hops.
    destruct (scan_operator s "~" {| priority := 5; latex := "\neg{}" |} eq_refl Hops)
      as (emitted & kept & Hsplit & Hem & _ & Hscan).
    assert (emitted = []) as ->.
    { destruct emitted as [|top emitted]; [done|].
      apply Forall_cons_1 in Hem as [(o & Ho & Hgt) _].
      apply operators_priority in Ho. simpl in Hgt. lia. }
    simpl in Hsplit. fold (level_stack s) in Hsplit. subst kept.
    rewrite Hscan in Hrun. cbn [mbind outcome_bind] in Hrun.
    set (s1 := {| rpn := push_data (rpn s) [];
                  pendingOperations := <[parenLevel s := "~" :: level_stack s]> (pendingOperations s);
                  parenLevel := parenLevel s |}) in *.
    assert (Hs1 : scanned (pre ++ ["~"]) s1) by (by eapply scan_token_scanned).
    assert (Habove1 : above_empty s1).
    { intros level Hlevel. simpl in *. rewrite lookup_insert_ne by lia. by apply Habove. }
    assert (Hstack1 : level_stack s1 = "~" :: level_stack s) by apply level_stack_insert.
    destruct (IH Hfollows (pre ++ ["~"]) s1 s' Hs1 Habove1)
      as (out & pend & Hdata & Hpend & Hloosest & Hlevel & Hbelow & Habove' & Hdecode);
      [|done|].
    { rewrite Hstack1. constructor; [by simpl|].
      eapply Forall_impl; [exact Hstack|]. simpl. lia. }
    exists out, (pend ++ ["~"]). split_and!.
    + rewrite Hdata. simpl. by rewrite app_nil_r.
    + rewrite Hpend, Hstack1, <- app_assoc. done.
    + apply Forall_app. split.
      * eapply Forall_impl; [exact Hloosest|]. simpl. lia.
      * constructor; [|constructor]. simpl. change (priority_of "~") with 5. lia.
    + done.
    + intros level Hlt. rewrite Hbelow by done. simpl. by rewrite lookup_insert_ne by lia.
    + done.
    + intros decode Hdec. rewrite app_assoc, fmap_app, (Hdecode decode Hdec).
      simpl. f_equal. f_equal. apply Hdec. by eexists.
  - (* a binary operator *)
    destruct Hfollows as ([[op Hop] Hnot] & Hleft & Hright & Hfl & Hfr).
    pose proof (priority_of_operator _ _ Hop) as Hprio.
    cbn [tokens_of] in Hrun. rewrite for_each_app in Hrun.
    destruct (for_each scan_token (tokens_of lhs) s) as [s1|e] eqn:Hrun1; [|done].
    cbn [mbind outcome_bind] in Hrun. rewrite for_each_cons in Hrun.
    destruct (IHl Hfl pre s s1 Hs Habove)
      as (outl & pendl & Hdatal & Hpendl & Hloosel & Hlevell & Hbelowl & Habovel & Hdecodel);
      [|done|].
    { eapply Forall_impl; [exact Hstack|]. simpl. lia. }
    pose proof (scan_scanned_from _ _ _ _ Hs Hrun1) as Hs1.
    pose proof (level_stack_operators s1 (scanned_steady _ s1 Hs1 Habovel)) as Hops1.
    destruct (scan_operator s1 token op Hop Hops1)
      as (emitted & kept & Hsplit & Hem & Hkept & Hscan).
    fold (level_stack s1) in Hsplit. rewrite Hpendl in Hsplit.
    destruct (priority_split (priority op) pendl (level_stack s) emitted kept)
      as [-> ->]; try done.
    { eapply Forall_impl; [exact Hloosel|]. simpl. lia. }
    { eapply Forall_impl; [exact Hstack|]. simpl. lia. }
    rewrite Hscan in Hrun. cbn [mbind outcome_bind] in Hrun.
    set (s2 := {| rpn := push_data (rpn s1) pendl;
                  pendingOperations :=
                    <[parenLevel s1 := token :: level_stack s]> (pendingOperations s1);
                  parenLevel := parenLevel s1 |}) in *.
    assert (Hs2 : scanned ((pre ++ tokens_of lhs) ++ [token]) s2)
      by (by eapply scan_token_scanned).
    assert (Habove2 : above_empty s2).
    { intros level Hlevel. simpl in *. rewrite lookup_insert_ne by lia. by apply Habovel. }
    assert (Hstack2 : level_stack s2 = token :: level_stack s) by apply level_stack_insert.
    destruct (IHr Hfr _ s2 s' Hs2 Habove2)
      as (outr & pendr & Hdatar & Hpendr & Hlooser & Hlevelr & Hbelowr & Habover & Hdecoder);
      [|done|].
    { rewrite Hstack2. constructor; [lia|].
      eapply Forall_impl; [exact Hstack|]. simpl. lia. }
    exists (outl ++ pendl ++ outr), (pendr ++ [token]). split_and!.
    + rewrite Hdatar. simpl. rewrite Hdatal, <- !app_assoc. done.
    + rewrite Hpendr, Hstack2, <- app_assoc. done.
    + apply Forall_app. split.
      * eapply Forall_impl; [exact Hlooser|]. simpl. lia.
      * constructor; [|constructor]. cbn [loosest]. lia.
    + simpl in Hlevelr. congruence.
    + intros level Hlt. rewrite Hbelowr by (simpl; lia). simpl.
      rewrite lookup_insert_ne by lia. by apply Hbelowl.
    + done.
    + intros decode Hdec.
      assert (Hdec1 : decodes decode s1).
      { apply (decodes_earlier decode (token :: tokens_of rhs) _ s1 s' Hs1); [|done].
        rewrite for_each_cons, Hscan. done. }
      replace ((outl ++ pendl ++ outr) ++ pendr ++ [token])
        with ((outl ++ pendl) ++ (outr ++ pendr) ++ [token])
        by (by rewrite <- !app_assoc).
      pose proof (Hdecodel decode Hdec1) as Hl. pose proof (Hdecoder decode Hdec) as Hr.
      rewrite fmap_app in Hl, Hr. rewrite !fmap_app, Hl, Hr.
      simpl. do 3 f_equal. apply Hdec. by eexists.
  - (* a group *)
    cbn [tokens_of] in Hrun. rewrite for_each_cons in Hrun.
    set (s1 := {| rpn := rpn s; pendingOperations := pendingOperations s;
                  parenLevel := parenLevel s + 1 |}).
    assert (Hopen : scan_token s "(" = Returns s1) by done.
    rewrite Hopen in Hrun. cbn [mbind outcome_bind] in Hrun.
    rewrite for_each_app in Hrun.
    destruct (for_each scan_token (tokens_of inner) s1) as [s2|e] eqn:Hrun2; [|done].
    cbn [mbind outcome_bind] in Hrun. rewrite for_each_cons in Hrun.
    assert (Hs1 : scanned (pre ++ ["("]) s1) by (by eapply scan_token_scanned).
    assert (Habove1 : above_empty s1).
    { intros level Hlevel. simpl in *. apply Habove. lia. }
    assert (Hstack1 : level_stack s1 = []).
    { unfold level_stack. simpl. apply Habove. lia. }
    destruct (IH Hfollows _ s1 s2 Hs1 Habove1)
      as (out & pend & Hdata & Hpend & Hloosest & Hlevel & Hbelow & Habove2 & Hdecode);
      [by rewrite Hstack1|done|].
    rewrite Hstack1, app_nil_r in Hpend.
    destruct (scan_token s2 ")") as [s3|e] eqn:Hclose; [|done].
    cbn [mbind outcome_bind for_each] in Hrun. injection Hrun as <-.
    apply scan_close_stack in Hclose as (stack & Hlookup & ->).
    unfold level_stack in Hpend. rewrite Hlookup in Hpend. simpl in Hpend. subst stack.
    simpl in Hlevel.
    exists (out ++ pend), []. split_and!; simpl.
    + by rewrite Hdata, app_assoc.
    + unfold level_stack. simpl. rewrite Hlevel.
      replace (parenLevel s + 1 - 1) with (parenLevel s) by lia.
      rewrite lookup_insert_ne by lia. rewrite Hbelow by (simpl; lia). done.
    + constructor.
    + lia.
    + intros level Hlt. rewrite lookup_insert_ne by lia. apply Hbelow. simpl. lia.
    + intros level Hlt. simpl in Hlt |- *.
      destruct (decide (level = parenLevel s2)) as [->|Hne].
      * by rewrite lookup_insert_eq.
      * rewrite lookup_insert_ne by done. apply Habove2. lia.
    + intros decode Hdec. rewrite app_nil_r. apply Hdecode.
      destruct Hdec as [Hnames Hops]. by split.
Qed.

Lemma postfix_of_compilation (proposition : string) (t : parse) (r : RPN) :
  follows_priorities t →
  chars (trim proposition) = tokens_of t →
  generateRPN proposition = Returns r →
  display r <$> data r = postfix_of t.
Proof.
  intros Hfollows Htokens. unfold generateRPN. rewrite Htokens.
  destruct (for_each scan_token (tokens_of t) scan_start) as [s|e] eqn:Hscan; [|done].
  cbn [mbind outcome_bind]. unfold scan_end.
  destruct (scan_parse t Hfollows [] scan_start s scanned_start)
    as (out & pend & Hdata & Hpend & _ & Hlevel & _ & _ & Hdecode); [| |done|].
  { intros level Hlevel. simpl in *. by rewrite lookup_singleton_ne by lia. }
  { by change (level_stack scan_start) with (@nil string). }
  change (level_stack scan_start) with (@nil string) in Hpend.
  rewrite app_nil_r in Hpend. unfold level_stack in Hpend.
  destruct (pendingOperations s !! parenLevel s) as [stack|]; [|done].
  simpl in Hpend. subst stack. intros [= <-]. simpl. rewrite drain_all, Hdata. simpl.
  apply Hdecode. apply scan_scanned in Hscan. split.
  - intros name symbol Hget. unfold display. simpl. by rewrite Hget.
  - intros token Htoken. unfold display. simpl.
    by rewrite (codeToMathVars_operator _ _ _ Hscan Htoken).
Qed.

(** The postfix program of a compilation is the postfix traversal of the
    parse tree of the input, when the tree follows the priorities: read
    back through [codeToMathVars], the data is that traversal.  Operators
    of the same priority nest to the right. *)
Theorem compiles_to_postfix (proposition : string) (t : parse) (r : RPN) :
  follows_priorities t →
  chars (trim proposition) = tokens_of t →
  generateRPN proposition = Returns r →
  display r <$> data r = postfix_of t.
Proof. apply postfix_of_compilation. Qed.

Lemma compiles_to_postfix_witness :
  ∃ r, generateRPN "a>b>~c&d" = Returns r
     ∧ display r <$> data r = ["a"; "b"; "c"; "~"; "d"; "&"; ">"; ">"].
Proof.
  destruct (generateRPN "a>b>~c&d") as [r|e] eqn:Hgen; [|vm_compute in Hgen; discriminate].
  exists r. split; [done|].
  apply (compiles_to_postfix "a>b>~c&d"
           (PBin ">" (PVar "a")
              (PBin ">" (PVar "b") (PBin "&" (PNot (PVar "c")) (PVar "d")))) r);
    [|reflexivity|done].
  simpl. split_and!; try done; try (by eexists); by vm_compute.
Defined.

(** ** The last column is the truth value of the proposition *)

(** A code name in use stands for a variable, and the two mappings agree
    on it. *)
Lemma scanned_code_name pre s name :
  scanned pre s → name ∈ codeVars (rpn s) →
  ∃ symbol,
    prop_get (codeToMathVars (rpn s)) name = Some symbol
    ∧ is_variable symbol
    ∧ prop_get (mathToCodeVars (rpn s)) symbol = Some name.
Proof.
  intros Hs Hin. pose proof Hs as [Hc Hcv Hm Hcm Hd Ho Hp].
  rewrite Hcv in Hin. apply list_elem_of_lookup_1 in Hin as [k Hk].
  assert (Hlen : length (codeVar <$> seq 1 (length (variables pre)))
                 = length (variables pre)) by (by rewrite length_fmap, length_seq).
  destruct (lookup_lt_is_Some_2 (variables pre) k) as [symbol Hsymbol].
  { rewrite <- Hlen. by eapply lookup_lt_Some. }
  assert (Hget : prop_get (codeToMathVars (rpn s)) name = Some symbol).
  { rewrite Hcm. apply prop_get_zip; [apply codeVars_NoDup|done|by exists k]. }
  exists symbol. split_and!; [done| |by apply (scanned_inverse pre s)].
  apply (variables_elem pre). by eapply list_elem_of_lookup_2.
Qed.

(** A token of the data that reads as an operator is that operator. *)
Lemma display_operator pre s token :
  scanned pre s →
  token ∈ codeVars (rpn s) ∨ is_Some (operators token) →
  is_Some (operators (display (rpn s) token)) →
  display (rpn s) token = token.
Proof.
  intros Hs [Hin|Hop] Hdisplay.
  - destruct (scanned_code_name pre s token Hs Hin) as (symbol & Hget & Hvar & _).
    unfold display in Hdisplay. rewrite Hget in Hdisplay. simpl in Hdisplay.
    by destruct (operators_not_variable symbol).
  - unfold display. by rewrite (codeToMathVars_operator _ _ _ Hs Hop).
Qed.

(** A token of the data that reads as a variable is the code name of
    that variable. *)
Lemma display_variable pre s token :
  scanned pre s →
  token ∈ codeVars (rpn s) ∨ is_Some (operators token) →
  is_variable (display (rpn s) token) →
  prop_get (mathToCodeVars (rpn s)) (display (rpn s) token) = Some token
  ∧ ∃ i, convert (rpn s) token = Index i ∧ (i < length (codeVars (rpn s)))%nat.
Proof.
  intros Hs [Hin|Hop] Hdisplay.
  - destruct (scanned_code_name pre s token Hs Hin) as (symbol & Hget & Hvar & Hinv).
    unfold display. rewrite Hget. simpl. split; [done|]. by apply convert_code_name.
  - unfold display in Hdisplay.
    rewrite (codeToMathVars_operator _ _ _ Hs Hop) in Hdisplay. simpl in Hdisplay.
    by destruct (operators_not_variable token).
Qed.

Lemma binary_Number v : binary v → Some v = Some (Number (truthy (Some v))).
Proof. by intros [-> | ->]. Qed.

(** The numeric pass over the postfix traversal of a tree pushes the truth
    value of the tree, and its last cell is that value when the tree has an
    operator. *)
Lemma replay_truth pre s values t :
  scanned pre s →
  Forall binary values → (length (codeVars (rpn s)) ≤ length values)%nat →
  follows_priorities t →
  ∀ program stack,
    Forall (λ token, token ∈ codeVars (rpn s) ∨ is_Some (operators token)) program →
    display (rpn s) <$> program = postfix_of t →
    ∃ cells,
      replay (numeric_step values) (convert (rpn s) <$> program) stack
      = (cells, Some (Number (truth (valuation_of (rpn s) values) t)) :: stack)
      ∧ (has_operator t = true →
         last cells = Some (Some (Number (truth (valuation_of (rpn s) values) t)))).
Proof.
  intros Hs Hvalues Hlen.
  induction t as [symbol|operand IH|token lhs IHl rhs IHr|inner IH];
    intros Hfollows program stack Hprogram Hdisplay; simpl in Hfollows.
  - (* a variable *)
    destruct program as [|name [|? ?]]; simplify_eq/=.
    apply Forall_cons_1 in Hprogram as [Hname _].
    destruct (display_variable pre s name Hs Hname Hfollows) as (Hget & i & Hi & Hlt).
    exists [None]. split; [|done]. rewrite Hi. simpl. do 2 f_equal.
    unfold valuation_of, variable_value. rewrite Hget. simpl. rewrite Hi.
    destruct (lookup_lt_is_Some_2 values i) as [v Hv]; [lia|]. rewrite Hv.
    apply binary_Number. rewrite Forall_forall in Hvalues.
    apply Hvalues. by eapply list_elem_of_lookup_2.
  - (* a negation *)
    destruct Hfollows as [_ Hfollows]. cbn [postfix_of] in Hdisplay.
    apply fmap_app_inv in Hdisplay as (program1 & last1 & Hd1 & Hd2 & ->).
    destruct last1 as [|x [|? ?]]; try done. injection Hd2 as Hd2.
    apply Forall_app in Hprogram as [Hprogram1 [Hx _]%Forall_cons_1].
    assert (Hxeq : display (rpn s) x = x).
    { apply (display_operator pre s x Hs Hx). rewrite <- Hd2. by eexists. }
    rewrite Hxeq in Hd2. subst x.
    destruct (IH Hfollows program1 stack Hprogram1 (eq_sym Hd1)) as (cells & Hreplay & _).
    assert (Hconvert : convert (rpn s) "~" = Symbol "~").
    { apply convert_other. intros Hin.
      destruct (scanned_code_name pre s "~" Hs Hin) as (symbol & Hget & _).
      by rewrite (codeToMathVars_operator pre s "~" Hs) in Hget by by eexists. }
    rewrite fmap_app, list_fmap_singleton, replay_app, Hreplay, Hconvert.
    cbn [truth]. destruct (truth _ operand);
      (eexists; split; [reflexivity|]; intros _; by rewrite last_snoc).
  - (* a binary operator *)
    destruct Hfollows as ([[op Hop] Hnot] & _ & _ & Hfl & Hfr).
    cbn [postfix_of] in Hdisplay.
    apply fmap_app_inv in Hdisplay as (programl & rest & Hdl & Hrest & ->).
    symmetry in Hrest.
    apply fmap_app_inv in Hrest as (programr & last1 & Hdr & Hd & ->).
    destruct last1 as [|x [|? ?]]; try done. injection Hd as Hd.
    apply Forall_app in Hprogram as [Hprograml Hprogram].
    apply Forall_app in Hprogram as [Hprogramr [Hx _]%Forall_cons_1].
    assert (Hxeq : display (rpn s) x = x).
    { apply (display_operator pre s x Hs Hx). rewrite <- Hd. by eexists. }
    rewrite Hxeq in Hd. subst x.
    destruct (IHl Hfl programl stack Hprograml (eq_sym Hdl)) as (cellsl & Hreplayl & _).
    destruct (IHr Hfr programr
                  (Some (Number (truth (valuation_of (rpn s) values) lhs)) :: stack)
                  Hprogramr (eq_sym Hdr)) as (cellsr & Hreplayr & _).
    assert (Hconvert : convert (rpn s) token = Symbol token).
    { apply convert_other. intros Hin.
      destruct (scanned_code_name pre s token Hs Hin) as (symbol & Hget & _).
      by rewrite (codeToMathVars_operator pre s token Hs) in Hget by by eexists. }
    rewrite !fmap_app, list_fmap_singleton, replay_app, Hreplayl. cbv beta iota.
    rewrite replay_app, Hreplayr, Hconvert. cbv beta iota.
    cbn [truth].
    destruct (operators_cases _ _ Hop) as [-> | [-> | [-> | [-> | [-> | ->]]]]];
      [done|..];
      destruct (truth _ lhs), (truth _ rhs);
      (eexists; split; [reflexivity|]; intros _; by rewrite app_assoc, last_snoc).
  - (* a group *)
    by apply IH.
Qed.

(** The runs of a compiled parse tree: the valuation of a run, the value
    left on the operating stack and the last cell of its row. *)
Lemma runs_truth (proposition : string) (t : parse) (r : RPN) :
  follows_priorities t →
  chars (trim proposition) = tokens_of t →
  generateRPN proposition = Returns r →
  ∀ run, run ∈ runs r →
    let valuation := valuation_of r (run_values run) in
    (∀ k symbol,
       variables (tokens_of t) !! k = Some symbol →
       valuation symbol = truthy (run_values run !! k))
    ∧ (replay (numeric_step (run_values run)) (convert r <$> data r) []).2
      = [Some (Number (truth valuation t))]
    ∧ (has_operator t = true →
       last (run_cells run) = Some (Some (Number (truth valuation t)))).
Proof.
  intros Hfollows Htokens Hgen run Hrun valuation.
  pose proof (postfix_of_compilation _ _ _ Hfollows Htokens Hgen) as Hpostfix.
  destruct (variable_names _ _ Hgen) as (Hcount & Hnames & Hmap).
  rewrite Htokens in Hcount, Hnames, Hmap.
  destruct (generateRPN_scanned _ _ Hgen) as (pending & level & Hs).
  rewrite runs_run_of in Hrun. apply list_elem_of_fmap in Hrun as (runNumber & -> & _).
  simpl in valuation |- *.
  set (values := assignment (variableCount r) runNumber) in *.
  destruct (replay_truth _ _ values t Hs) with (program := data r) (stack := @nil (option Z))
    as (cells & Hreplay & Hlast); simpl; try done.
  { apply assignment_binary. }
  { unfold values. rewrite assignment_length, Hnames, Hcount, length_fmap, length_seq. done. }
  { apply (scanned_data _ _ Hs). }
  simpl in Hreplay, Hlast. split_and!.
  - intros k symbol Hk. unfold valuation, valuation_of, variable_value.
    rewrite (Hmap k symbol Hk). simpl.
    rewrite (convert_lookup r k); [done| |].
    + rewrite Hnames. apply codeVars_NoDup.
    + rewrite Hnames, list_lookup_fmap, lookup_seq_lt; [done|]. by eapply lookup_lt_Some.
  - by rewrite Hreplay.
  - intros Hop. rewrite Hreplay. by apply Hlast.
Qed.

(** For a proposition whose parse tree follows the priorities, every run
    of the table ends with one value on the operating stack, the truth value
    of the proposition when each variable is valued by the item of the run at
    its position; when the proposition has an operator, that value is the
    last cell of the row. *)
Theorem last_column_is_truth_value (proposition : string) (t : parse) (r : RPN) :
  follows_priorities t →
  chars (trim proposition) = tokens_of t →
  generateRPN proposition = Returns r →
  ∀ run, run ∈ runs r →
    let valuation := valuation_of r (run_values run) in
    (∀ k symbol,
       variables (tokens_of t) !! k = Some symbol →
       valuation symbol = truthy (run_values run !! k))
    ∧ (replay (numeric_step (run_values run)) (convert r <$> data r) []).2
      = [Some (Number (truth valuation t))]
    ∧ (has_operator t = true →
       last (run_cells run) = Some (Some (Number (truth valuation t)))).
Proof. apply runs_truth. Qed.

Lemma last_column_is_truth_value_witness :
  ∃ r run,
    generateRPN "p>q" = Returns r
    ∧ run ∈ runs r
    ∧ last (run_cells run)
      = Some (Some (Number (truth (valuation_of r (run_values run))
                                  (PBin ">" (PVar "p") (PVar "q"))))).
Proof.
  destruct (generateRPN "p>q") as [r|e] eqn:Hgen; [|vm_compute in Hgen; discriminate].
  exists r, (run_of r 1).
  assert (Hrun : run_of r 1 ∈ runs r).
  { rewrite runs_run_of. apply list_elem_of_fmap_2, elem_of_seq.
    assert (2 ^ variableCount r ≠ 0)%nat by (apply Nat.pow_nonzero; lia).
    vm_compute in Hgen. injection Hgen as <-. simpl. lia. }
  split; [done|]. split; [done|].
  refine (proj2 (proj2 (last_column_is_truth_value "p>q" (PBin ">" (PVar "p") (PVar "q")) r
                          _ eq_refl Hgen (run_of r 1) Hrun)) eq_refl).
  simpl. split_and!; try done; try (by eexists); by vm_compute.
Defined.

(** ** Every well-formed proposition has a parse tree *)

Lemma binary_priority token : is_binary token → 1 ≤ priority_of token ≤ 4.
Proof.
  intros [[op Hop] Hnot]. rewrite (priority_of_operator _ _ Hop).
  destruct (operators_cases _ _ Hop) as [-> | [-> | [-> | [-> | [-> | ->]]]]];
    [done|..]; vm_compute in Hop; injection Hop as <-; simpl; lia.
Qed.

Lemma loosest_bounds t : follows_priorities t → 1 ≤ loosest t ≤ 6.
Proof.
  induction t as [symbol|operand IH|token lhs IHl rhs IHr|inner IH]; simpl; [lia| | |lia].
  - intros [? ?%IH]. lia.
  - intros (Hop%binary_priority & _ & _ & ?%IHl & ?%IHr). lia.
Qed.

(** A tree with an operator of priority 4 or less outside its groups is
    a binary operator applied to two trees, and that operator is its
    loosest. *)
Lemma loosest_binary t :
  follows_priorities t → loosest t ≤ 4 →
  ∃ token lhs rhs, t = PBin token lhs rhs ∧ priority_of token = loosest t.
Proof.
  destruct t as [symbol|operand|token lhs rhs|inner]; simpl; [lia| |intros|lia].
  - intros [? _] ?. lia.
  - exists token, lhs, rhs. split; [done|]. lia.
Qed.

Lemma negate_left_tokens t : tokens_of (negate_left t) = "~" :: tokens_of t.
Proof.
  induction t as [symbol|operand IH|token lhs IHl rhs IHr|inner IH]; simpl; try done.
  by rewrite IHl.
Qed.

Lemma negate_left_loosest t : loosest (negate_left t) = 5 `min` loosest t.
Proof.
  induction t as [symbol|operand IH|token lhs IHl rhs IHr|inner IH]; simpl; try done.
  rewrite IHl. lia.
Qed.

Lemma negate_left_follows t :
  follows_priorities t → follows_priorities (negate_left t).
Proof.
  induction t as [symbol|operand IH|token lhs IHl rhs IHr|inner IH]; simpl.
  - intros Hvar. split; [lia|done].
  - intros [Hloose Hfollows]. split_and!; [lia|lia|done].
  - intros (Hop & Hleft & Hright & Hfl & Hfr).
    pose proof (binary_priority _ Hop). rewrite negate_left_loosest.
    split_and!; [done|lia|done|by apply IHl|done].
  - intros Hfollows. split; [lia|done].
Qed.

(** A binary operator between the tokens of two trees: the tree of the
    whole has the loosest operator on top, the leftmost of them when several
    have that priority. *)
Lemma binary_tree size :
  ∀ lhs rhs token,
    (parse_size lhs + parse_size rhs ≤ size)%nat →
    follows_priorities lhs → follows_priorities rhs → is_binary token →
    ∃ t,
      tokens_of t = tokens_of lhs ++ token :: tokens_of rhs
      ∧ follows_priorities t
      ∧ loosest t = loosest lhs `min` (priority_of token `min` loosest rhs).
Proof.
  induction size as [|size IH]; intros lhs rhs token Hsize Hfl Hfr Hop.
  { destruct lhs; simpl in Hsize; lia. }
  pose proof (binary_priority _ Hop) as Hp.
  destruct (decide (loosest lhs ≤ priority_of token `min` loosest rhs)) as [Hleft|Hleft].
  - destruct (loosest_binary lhs Hfl) as (token1 & lhs1 & rhs1 & -> & Hp1); [lia|].
    simpl in Hfl. destruct Hfl as (Hop1 & Hl1 & Hr1 & Hfl1 & Hfr1).
    destruct (IH rhs1 rhs token) as (t & Htokens & Hfollows & Hloosest);
      [simpl in Hsize; lia|done..|].
    exists (PBin token1 lhs1 t). simpl in *. split_and!; try done.
    + rewrite Htokens, <- app_assoc. done.
    + lia.
    + lia.
  - destruct (decide (priority_of token ≤ loosest rhs)) as [Hmiddle|Hright].
    + exists (PBin token lhs rhs). simpl. split_and!; try done; lia.
    + pose proof (loosest_bounds lhs Hfl).
      destruct (loosest_binary rhs Hfr) as (token2 & lhs2 & rhs2 & -> & Hp2); [lia|].
      simpl in Hfr. destruct Hfr as (Hop2 & Hl2 & Hr2 & Hfl2 & Hfr2).
      destruct (IH lhs lhs2 token) as (t & Htokens & Hfollows & Hloosest);
        [simpl in Hsize; lia|done..|].
      exists (PBin token2 t rhs2). simpl in *. split_and!; try done.
      * rewrite Htokens, <- app_assoc. done.
      * lia.
      * lia.
Qed.

(** A well-formed list of tokens is the list of the tokens of a tree
    that follows the priorities. *)
Lemma well_formed_parse tokens :
  well_formed tokens → ∃ t, tokens_of t = tokens ∧ follows_priorities t.
Proof.
  induction 1 as [token Hvar|p Hp (t & <- & Hfollows)
                  |p op q Hop Hp (tp & <- & Hfp) Hq (tq & <- & Hfq)
                  |p Hp (t & <- & Hfollows)].
  - by exists (PVar token).
  - exists (negate_left t). split; [apply negate_left_tokens|by apply negate_left_follows].
  - destruct (binary_tree _ tp tq op (le_n _) Hfp Hfq Hop) as (t & Htokens & Hfollows & _).
    by exists t.
  - by exists (PGroup t).
Qed.

Lemma parse_well_formed t : follows_priorities t → well_formed (tokens_of t).
Proof.
  induction t as [symbol|operand IH|token lhs IHl rhs IHr|inner IH]; simpl.
  - by constructor.
  - intros [_ ?]. constructor. by apply IH.
  - intros (Hop & _ & _ & Hfl & Hfr). constructor; [done|by apply IHl|by apply IHr].
  - intros Hfollows. constructor. by apply IH.
Qed.

(** ** When the compilation throws *)

Lemma level_after_snoc tokens token :
  level_after (tokens ++ [token])
  = if decide (token = "(") then level_after tokens + 1
    else if decide (token = ")") then level_after tokens - 1
    else level_after tokens.
Proof. unfold level_after. by rewrite foldl_app. Qed.

Lemma has_stack_snoc tokens token level :
  has_stack (tokens ++ [token]) level
  ↔ has_stack tokens level
    ∨ (is_Some (operators token) ∧ level_after tokens = level).
Proof.
  unfold has_stack. split.
  - intros [->|(i & op & Hi & Hop & Hlevel)]; [by left; left|].
    apply lookup_app_Some in Hi as [Hi|[Hlen Hi]].
    + left. right. exists i, op. split_and!; [done|done|].
      rewrite take_app_le in Hlevel; [done|]. apply lookup_lt_Some in Hi. lia.
    + right. apply list_lookup_singleton_Some in Hi as [Hi ->].
      split; [done|]. rewrite take_app_le, take_ge in Hlevel by lia. done.
  - intros [[->|(i & op & Hi & Hop & Hlevel)]|[Hop Hlevel]]; [by left| |].
    + right. exists i, op. split_and!; [by apply lookup_app_l_Some|done|].
      rewrite take_app_le; [done|]. apply lookup_lt_Some in Hi. lia.
    + right. exists (length tokens), token. split_and!; [|done|].
      * by rewrite lookup_app_r, Nat.sub_diag by lia.
      * by rewrite take_app_le, take_ge by lia.
Qed.

(** A token other than a closing parenthesis never throws. *)
Lemma scan_token_returns pre s token :
  scanned pre s → token ≠ ")" → ∃ s', scan_token s token = Returns s'.
Proof.
  intros Hs Hclose. unfold scan_token.
  case_decide; [by eexists|]. rewrite decide_False by done.
  destruct (operators token) as [op|] eqn:Hop.
  - assert (Hstack : Forall (λ t, is_Some (operators t))
                            (default [] (pendingOperations s !! parenLevel s))).
    { destruct (pendingOperations s !! parenLevel s) as [stack|] eqn:Hlookup;
        [|constructor]. by eapply (scanned_pending _ _ Hs). }
    destruct (scan_operator s token op Hop Hstack) as (emitted & kept & _ & _ & _ & Hscan).
    unfold scan_token in Hscan. rewrite !decide_False, Hop in Hscan by done.
    by eexists.
  - destruct (prop_get (mathToCodeVars (rpn s)) token); by eexists.
Qed.

(** What a token does to the level and to the levels that have a
    stack. *)
Lemma scan_token_levels pre s token s' :
  scanned pre s → scan_token s token = Returns s' →
  parenLevel s'
  = (if decide (token = "(") then parenLevel s + 1
     else if decide (token = ")") then parenLevel s - 1
     else parenLevel s)
  ∧ ∀ level,
      is_Some (pendingOperations s' !! level)
      ↔ is_Some (pendingOperations s !! level)
        ∨ (is_Some (operators token) ∧ parenLevel s = level).
Proof.
  intros Hs Hscan.
  destruct (decide (token = "(")) as [->|Hopen].
  { injection Hscan as <-. simpl. split; [done|]. intros level.
    split; [by left|]. by intros [?|[[? [=]] _]]. }
  destruct (decide (token = ")")) as [->|Hclose].
  { apply scan_close_stack in Hscan as (stack & Hlookup & ->). simpl.
    split; [done|]. intros level. rewrite lookup_insert. split.
    - case_decide; [subst; left; by eexists|by left].
    - intros [Hsome|[[? [=]] _]]. case_decide; [by eexists|done]. }
  destruct (operators token) as [op|] eqn:Hop.
  - assert (Hstack : Forall (λ t, is_Some (operators t))
                            (default [] (pendingOperations s !! parenLevel s))).
    { destruct (pendingOperations s !! parenLevel s) as [stack|] eqn:Hlookup;
        [|constructor]. by eapply (scanned_pending _ _ Hs). }
    destruct (scan_operator s token op Hop Hstack) as (emitted & kept & _ & _ & _ & Hscan').
    rewrite Hscan' in Hscan. injection Hscan as <-. simpl.
    split; [done|]. intros level. rewrite lookup_insert. split.
    + case_decide; [subst; right; split; [by eexists|done]|by left].
    + intros [Hsome|[_ <-]]; [|by rewrite decide_True; [eexists|]].
      case_decide; [by eexists|done].
  - unfold scan_token in Hscan. rewrite !decide_False, Hop in Hscan by done.
    destruct (prop_get (mathToCodeVars (rpn s)) token);
      injection Hscan as <-; simpl; (split; [done|]);
      intros level; (split; [by left|]); by intros [?|[[? [=]] _]].
Qed.

(** The level of the scanner and the levels that have a stack, after any
    list of tokens. *)
Lemma scan_levels tokens s :
  for_each scan_token tokens scan_start = Returns s →
  parenLevel s = level_after tokens
  ∧ ∀ level, is_Some (pendingOperations s !! level) ↔ has_stack tokens level.
Proof.
  revert s. induction tokens as [|token tokens IH] using rev_ind; intros s Hrun.
  - injection Hrun as <-. split; [done|]. intros level. simpl.
    rewrite lookup_singleton_is_Some. unfold has_stack. split; [by left|].
    intros [->|(i & op & Hi & _)]; done.
  - rewrite for_each_app in Hrun.
    destruct (for_each scan_token tokens scan_start) as [s1|e] eqn:Hrun1; [|done].
    cbn [mbind outcome_bind] in Hrun. rewrite for_each_cons in Hrun.
    destruct (scan_token s1 token) as [s2|e] eqn:Hscan; [|done].
    injection Hrun as <-.
    destruct (IH s1 eq_refl) as [Hlevel Hstack].
    destruct (scan_token_levels tokens s1 token s2 (scan_scanned _ _ Hrun1) Hscan)
      as [Hlevel2 Hstack2].
    split.
    + by rewrite level_after_snoc, Hlevel2, Hlevel.
    + intros level. by rewrite Hstack2, has_stack_snoc, Hstack, Hlevel.
Qed.

(** The scan returns exactly when every closing parenthesis is read on a
    level that has a stack. *)
Lemma scan_returns_iff tokens :
  (∃ s, for_each scan_token tokens scan_start = Returns s)
  ↔ ∀ i, tokens !! i = Some ")" →
         has_stack (take i tokens) (level_after (take i tokens)).
Proof.
  induction tokens as [|token tokens IH] using rev_ind.
  - split; [by intros _ i ?|]. intros _. by eexists.
  - rewrite for_each_app. split.
    + intros [s Hrun].
      destruct (for_each scan_token tokens scan_start) as [s1|e] eqn:Hrun1; [|done].
      cbn [mbind outcome_bind] in Hrun. rewrite for_each_cons in Hrun.
      destruct (scan_token s1 token) as [s2|e] eqn:Hscan; [|done].
      intros i Hi. apply lookup_app_Some in Hi as [Hi|[Hlen Hi]].
      * rewrite take_app_le by (apply lookup_lt_Some in Hi; lia).
        apply (proj1 IH); [by eexists|done].
      * apply list_lookup_singleton_Some in Hi as [Hi ->].
        rewrite take_app_le, take_ge by lia.
        destruct (scan_levels tokens s1 Hrun1) as [Hlevel Hstack].
        apply Hstack. rewrite <- Hlevel.
        apply scan_close_stack in Hscan as (stack & Hlookup & _). by eexists.
    + intros Hall.
      destruct (proj2 IH) as [s1 Hrun1].
      { intros i Hi. specialize (Hall i).
        rewrite take_app_le in Hall by (apply lookup_lt_Some in Hi; lia).
        apply Hall. by apply lookup_app_l_Some. }
      rewrite Hrun1. cbn [mbind outcome_bind]. rewrite for_each_cons.
      destruct (decide (token = ")")) as [->|Hclose].
      * specialize (Hall (length tokens)).
        rewrite take_app_le, take_ge in Hall by lia.
        destruct (scan_levels tokens s1 Hrun1) as [Hlevel Hstack].
        destruct (proj2 (Hstack (parenLevel s1))) as [stack Hlookup].
        { rewrite Hlevel. apply Hall. by rewrite lookup_app_r, Nat.sub_diag by lia. }
        unfold scan_token. rewrite decide_False, decide_True, Hlookup by done.
        by eexists.
      * destruct (scan_token_returns tokens s1 token (scan_scanned _ _ Hrun1) Hclose)
          as [s2 Hscan].
        rewrite Hscan. by eexists.
Qed.

(** The compilation returns exactly when every closing parenthesis, and
    the end of the input, is reached on a level that has a stack: level 0,
    or a level on which an operator was read before.  In particular it
    returns on every input without parentheses, whatever its tokens. *)
Theorem generateRPN_returns_iff (proposition : string) :
  let tokens := chars (trim proposition) in
  ((∃ r, generateRPN proposition = Returns r)
   ↔ (∀ i, tokens !! i = Some ")" →
           has_stack (take i tokens) (level_after (take i tokens)))
     ∧ has_stack tokens (level_after tokens))
  ∧ ((∀ token, token ∈ tokens → token ≠ "(" ∧ token ≠ ")") →
     ∃ r, generateRPN proposition = Returns r).
Proof.
  intros tokens.
  assert (Hiff : (∃ r, generateRPN proposition = Returns r)
    ↔ (∀ i, tokens !! i = Some ")" →
            has_stack (take i tokens) (level_after (take i tokens)))
      ∧ has_stack tokens (level_after tokens)).
  { unfold generateRPN. fold tokens. rewrite <- scan_returns_iff. split.
    - intros [r Hgen].
      destruct (for_each scan_token tokens scan_start) as [s|e] eqn:Hscan; [|done].
      split; [by eexists|]. cbn [mbind outcome_bind] in Hgen. unfold scan_end in Hgen.
      destruct (scan_levels tokens s Hscan) as [Hlevel Hstack].
      apply Hstack. rewrite <- Hlevel.
      destruct (pendingOperations s !! parenLevel s); [by eexists|done].
    - intros [[s Hscan] Hend]. rewrite Hscan. cbn [mbind outcome_bind].
      destruct (scan_levels tokens s Hscan) as [Hlevel Hstack].
      rewrite <- Hlevel in Hend. apply Hstack in Hend as [stack Hlookup].
      unfold scan_end. rewrite Hlookup. by eexists. }
  split; [exact Hiff|]. intros Hplain. apply Hiff.
  assert (Hlevel : ∀ items, (∀ token, token ∈ items → token ≠ "(" ∧ token ≠ ")") →
                            level_after items = 0).
  { induction items as [|x items IH] using rev_ind; intros Hitems; [done|].
    rewrite level_after_snoc, IH.
    - destruct (Hitems x) as [Hopen Hclose]; [apply elem_of_app; right; left|].
      by rewrite !decide_False.
    - intros token Hin. apply Hitems, elem_of_app. by left. }
  split.
  - intros i Hi. destruct (Hplain ")") as [_ []]; [|done]. by eapply list_elem_of_lookup_2.
  - left. by apply Hlevel.
Qed.

(** ** The table of a well-formed proposition *)

(** A well-formed proposition that compiles has a parse tree that follows
    the priorities, whose postfix traversal is the compiled program read back
    through [codeToMathVars], and whose truth value, under the valuation of
    each run, is the one value the run leaves on the operating stack. *)
Theorem well_formed_truth_table (proposition : string) (r : RPN) :
  well_formed (chars (trim proposition)) →
  generateRPN proposition = Returns r →
  ∃ t, tokens_of t = chars (trim proposition)
     ∧ follows_priorities t
     ∧ display r <$> data r = postfix_of t
     ∧ ∀ run, run ∈ runs r →
         (replay (numeric_step (run_values run)) (convert r <$> data r) []).2
         = [Some (Number (truth (valuation_of r (run_values run)) t))].
Proof.
  intros Hwf Hgen.
  destruct (well_formed_parse _ Hwf) as (t & Htokens & Hfollows).
  exists t. split_and!; [done|done|by eapply postfix_of_compilation|].
  intros run Hrun.
  by destruct (runs_truth proposition t r Hfollows (eq_sym Htokens) Hgen run Hrun)
    as (_ & ? & _).
Qed.

Lemma well_formed_truth_table_witness :
  ∃ r t, generateRPN "~p&q" = Returns r
       ∧ tokens_of t = ["~"; "p"; "&"; "q"]
       ∧ follows_priorities t
       ∧ display r <$> data r = postfix_of t.
Proof.
  destruct (generateRPN "~p&q") as [r|e] eqn:Hgen; [|vm_compute in Hgen; discriminate].
  destruct (well_formed_truth_table "~p&q" r) as (t & Htokens & Hfollows & Hpostfix & _);
    [|done|by exists r, t].
  change (well_formed (("~" :: ["p"]) ++ "&" :: ["q"])).
  apply wf_binary; [split; [by eexists|done]| |by apply wf_variable].
  by apply wf_not, wf_variable.
Defined.

(** ** The columns of a parse tree *)

(** A token of the program that displays as a variable is the code name
    of that variable. *)
Lemma display_variable_name pre s token :
  scanned pre s →
  token ∈ codeVars (rpn s) ∨ is_Some (operators token) →
  is_variable (display (rpn s) token) →
  operators token = None
  ∧ prop_get (codeToMathVars (rpn s)) token = Some (display (rpn s) token).
Proof.
  intros Hs [Hin|Hop] Hdisplay.
  - destruct (scanned_code_name pre s token Hs Hin) as (symbol & Hget & _).
    split; [|unfold display; by rewrite Hget].
    rewrite (scanned_codeVars _ _ Hs) in Hin.
    apply list_elem_of_fmap in Hin as (k & -> & _). apply codeVar_not_operator.
  - unfold display in Hdisplay.
    rewrite (codeToMathVars_operator pre s token Hs Hop) in Hdisplay.
    destruct Hdisplay as (_ & _ & Hnone). destruct Hop as [op Hop]. simpl in Hnone.
    congruence.
Qed.

(** The header pass over the postfix traversal of a tree pushes the text
    of the tree and adds the texts of its operators' sub-trees. *)
Lemma replay_header_cells pre s t :
  scanned pre s →
  follows_priorities t →
  ∀ program stack,
    Forall (λ token, token ∈ codeVars (rpn s) ∨ is_Some (operators token)) program →
    display (rpn s) <$> program = postfix_of t →
    replay (header_step (rpn s)) program stack
    = (header_cells t, Some (latex_of t) :: stack).
Proof.
  intros Hs.
  induction t as [symbol|operand IH|token lhs IHl rhs IHr|inner IH];
    intros Hfollows program stack Hprogram Hdisplay; simpl in Hfollows.
  - destruct program as [|name [|? ?]]; simplify_eq/=.
    apply Forall_cons_1 in Hprogram as [Hname _].
    destruct (display_variable_name pre s name Hs Hname Hfollows) as [Hnone Hget].
    unfold header_step. by rewrite Hnone, Hget.
  - destruct Hfollows as [_ Hfollows]. cbn [postfix_of] in Hdisplay.
    apply fmap_app_inv in Hdisplay as (program1 & last1 & Hd1 & Hd2 & ->).
    destruct last1 as [|x [|? ?]]; try done. injection Hd2 as Hd2.
    apply Forall_app in Hprogram as [Hprogram1 [Hx _]%Forall_cons_1].
    assert (Hxeq : display (rpn s) x = x).
    { apply (display_operator pre s x Hs Hx). rewrite <- Hd2. by eexists. }
    rewrite Hxeq in Hd2. subst x.
    rewrite replay_app, (IH Hfollows program1 stack Hprogram1 (eq_sym Hd1)).
    reflexivity.
  - destruct Hfollows as ([[op Hop] Hnot] & _ & _ & Hfl & Hfr).
    cbn [postfix_of] in Hdisplay.
    apply fmap_app_inv in Hdisplay as (programl & rest & Hdl & Hrest & ->).
    symmetry in Hrest.
    apply fmap_app_inv in Hrest as (programr & last1 & Hdr & Hd & ->).
    destruct last1 as [|x [|? ?]]; try done. injection Hd as Hd.
    apply Forall_app in Hprogram as [Hprograml Hprogram].
    apply Forall_app in Hprogram as [Hprogramr [Hx _]%Forall_cons_1].
    assert (Hxeq : display (rpn s) x = x).
    { apply (display_operator pre s x Hs Hx). rewrite <- Hd. by eexists. }
    rewrite Hxeq in Hd. subst x.
    rewrite replay_app, (IHl Hfl programl stack Hprograml (eq_sym Hdl)). cbv beta iota.
    rewrite replay_app, (IHr Hfr programr _ Hprogramr (eq_sym Hdr)). cbv beta iota.
    cbn [replay header_cells latex_of]. unfold header_step.
    rewrite Hop, decide_False by done. reflexivity.
  - by apply IH.
Qed.

(** The numeric pass over the postfix traversal of a tree pushes the truth
    value of the tree and adds the truth values of its operators'
    sub-trees. *)
Lemma replay_value_cells pre s values t :
  scanned pre s →
  Forall binary values → (length (codeVars (rpn s)) ≤ length values)%nat →
  follows_priorities t →
  ∀ program stack,
    Forall (λ token, token ∈ codeVars (rpn s) ∨ is_Some (operators token)) program →
    display (rpn s) <$> program = postfix_of t →
    replay (numeric_step values) (convert (rpn s) <$> program) stack
    = (value_cells (valuation_of (rpn s) values) t,
       Some (Number (truth (valuation_of (rpn s) values) t)) :: stack).
Proof.
  intros Hs Hvalues Hlen.
  induction t as [symbol|operand IH|token lhs IHl rhs IHr|inner IH];
    intros Hfollows program stack Hprogram Hdisplay; simpl in Hfollows.
  - destruct program as [|name [|? ?]]; simplify_eq/=.
    apply Forall_cons_1 in Hprogram as [Hname _].
    destruct (display_variable pre s name Hs Hname Hfollows) as (Hget & i & Hi & Hlt).
    rewrite Hi. simpl. do 3 f_equal.
    unfold valuation_of, variable_value. rewrite Hget. simpl. rewrite Hi.
    destruct (lookup_lt_is_Some_2 values i) as [v Hv]; [lia|]. rewrite Hv.
    apply binary_Number. rewrite Forall_forall in Hvalues.
    apply Hvalues. by eapply list_elem_of_lookup_2.
  - destruct Hfollows as [_ Hfollows]. cbn [postfix_of] in Hdisplay.
    apply fmap_app_inv in Hdisplay as (program1 & last1 & Hd1 & Hd2 & ->).
    destruct last1 as [|x [|? ?]]; try done. injection Hd2 as Hd2.
    apply Forall_app in Hprogram as [Hprogram1 [Hx _]%Forall_cons_1].
    assert (Hxeq : display (rpn s) x = x).
    { apply (display_operator pre s x Hs Hx). rewrite <- Hd2. by eexists. }
    rewrite Hxeq in Hd2. subst x.
    assert (Hconvert : convert (rpn s) "~" = Symbol "~").
    { apply convert_other. intros Hin.
      destruct (scanned_code_name pre s "~" Hs Hin) as (symbol & Hget & _).
      by rewrite (codeToMathVars_operator pre s "~" Hs) in Hget by by eexists. }
    rewrite fmap_app, list_fmap_singleton, replay_app,
      (IH Hfollows program1 stack Hprogram1 (eq_sym Hd1)), Hconvert.
    cbn [truth value_cells]. by destruct (truth _ operand).
  - destruct Hfollows as ([[op Hop] Hnot] & _ & _ & Hfl & Hfr).
    cbn [postfix_of] in Hdisplay.
    apply fmap_app_inv in Hdisplay as (programl & rest & Hdl & Hrest & ->).
    symmetry in Hrest.
    apply fmap_app_inv in Hrest as (programr & last1 & Hdr & Hd & ->).
    destruct last1 as [|x [|? ?]]; try done. injection Hd as Hd.
    apply Forall_app in Hprogram as [Hprograml Hprogram].
    apply Forall_app in Hprogram as [Hprogramr [Hx _]%Forall_cons_1].
    assert (Hxeq : display (rpn s) x = x).
    { apply (display_operator pre s x Hs Hx). rewrite <- Hd. by eexists. }
    rewrite Hxeq in Hd. subst x.
    assert (Hconvert : convert (rpn s) token = Symbol token).
    { apply convert_other. intros Hin.
      destruct (scanned_code_name pre s token Hs Hin) as (symbol & Hget & _).
      by rewrite (codeToMathVars_operator pre s token Hs) in Hget by by eexists. }
    rewrite !fmap_app, list_fmap_singleton, replay_app,
      (IHl Hfl programl stack Hprograml (eq_sym Hdl)). cbv beta iota.
    rewrite replay_app, (IHr Hfr programr _ Hprogramr (eq_sym Hdr)), Hconvert.
    cbv beta iota. cbn [truth value_cells].
    destruct (operators_cases _ _ Hop) as [-> | [-> | [-> | [-> | [-> | ->]]]]];
      [done|..];
      by destruct (truth _ lhs), (truth _ rhs).
  - by apply IH.
Qed.

(** For a proposition whose parse tree follows the priorities, the
    columns of the table are the operators' sub-trees in postfix order: the
    header of a column is the LaTeX text of its sub-tree, without the
    parentheses of the input, and its cell in a run is the truth value of
    the sub-tree under the valuation of the run. *)
Theorem columns_of_parse_tree (proposition : string) (t : parse) (r : RPN) :
  follows_priorities t →
  chars (trim proposition) = tokens_of t →
  generateRPN proposition = Returns r →
  headers r = header_cells t
  ∧ ∀ run, run ∈ runs r →
      run_cells run = value_cells (valuation_of r (run_values run)) t.
Proof.
  intros Hfollows Htokens Hgen.
  pose proof (postfix_of_compilation _ _ _ Hfollows Htokens Hgen) as Hpostfix.
  destruct (variable_names _ _ Hgen) as (Hcount & Hnames & _).
  destruct (generateRPN_scanned _ _ Hgen) as (pending & level & Hs).
  assert (Hlen : (length (codeVars r) ≤ length (assignment (variableCount r) 0))%nat).
  { by rewrite assignment_length, Hnames, Hcount, length_fmap, length_seq. }
  split.
  - pose proof (replay_header_cells _ _ t Hs Hfollows (data r) []
                  (scanned_data _ _ Hs) Hpostfix) as Hreplay.
    simpl in Hreplay. unfold headers. by rewrite Hreplay.
  - intros run Hrun.
    rewrite runs_run_of in Hrun. apply list_elem_of_fmap in Hrun as (runNumber & -> & _).
    rewrite assignment_length in Hlen.
    pose proof (replay_value_cells _ _ (assignment (variableCount r) runNumber) t Hs
                  (assignment_binary _ _)) as Hreplay.
    simpl in Hreplay. rewrite assignment_length in Hreplay.
    specialize (Hreplay Hlen Hfollows (data r) [] (scanned_data _ _ Hs) Hpostfix).
    simpl. by rewrite Hreplay.
Qed.

Lemma columns_of_parse_tree_witness :
  ∃ r, generateRPN "(p|q)&~r" = Returns r
     ∧ headers r
       = [None; None; Some "p\lor{}q"; None; Some "\overline{r}";
          Some "p\lor{}q\land{}\overline{r}"].
Proof.
  destruct (generateRPN "(p|q)&~r") as [r|e] eqn:Hgen; [|vm_compute in Hgen; discriminate].
  exists r. split; [done|].
  refine (proj1 (columns_of_parse_tree "(p|q)&~r"
                   (PBin "&" (PGroup (PBin "|" (PVar "p") (PVar "q"))) (PNot (PVar "r")))
                   r _ eq_refl Hgen)).
  simpl. split_and!; try done; try (by eexists); by vm_compute.
Defined.

(** ** The variables of the header *)

Lemma chars_single s token : token ∈ chars s → ∃ c, token = String c "".
Proof.
  induction s as [|c s IH]; simpl; [by intros ?%elem_of_nil|].
  intros [->|Hin]%elem_of_cons; [by eexists|by apply IH].
Qed.

(** The index of a one-character key: the digits have theirs, the other
    characters have none. *)
Lemma index_of_key_single c :
  match index_of_key (String c "") with
  | Some n => (n, String c "") ∈ digit_indexes
  | None => String c "" ∉ digits
  end.
Proof.
  assert (Hcheck :
    match index_of_key (String c "") with
    | Some n => bool_decide ((n, String c "") ∈ digit_indexes)
    | None => bool_decide (String c "" ∉ digits)
    end = true).
  { destruct c as [[] [] [] [] [] [] [] []]; vm_compute; reflexivity. }
  destruct (index_of_key (String c "")); exact (bool_decide_eq_true_1 _ Hcheck).
Qed.

Lemma index_of_digit n k : (n, k) ∈ digit_indexes → index_of_key k = Some n.
Proof.
  unfold digit_indexes, digits. simpl.
  rewrite !elem_of_cons, elem_of_nil.
  intros [H|[H|[H|[H|[H|[H|[H|[H|[H|[H|[]]]]]]]]]]];
    injection H as -> ->; vm_compute; reflexivity.
Qed.

Lemma filter_ext_in {A : Type} (P1 P2 : A → Prop)
    `{!∀ x, Decision (P1 x), !∀ x, Decision (P2 x)} (l : list A) :
  Forall (λ x, P1 x ↔ P2 x) l → filter P1 l = filter P2 l.
Proof.
  induction 1 as [|x l Hx _ IH]; [done|].
  rewrite !filter_cons, IH. apply decide_ext, Hx.
Qed.

Lemma filter_fmap_in {A B : Type} (f : A → B) (P : A → Prop) (Q : B → Prop)
    `{!∀ x, Decision (P x), !∀ y, Decision (Q y)} (l : list A) :
  Forall (λ x, P x ↔ Q (f x)) l → f <$> filter P l = filter Q (f <$> l).
Proof.
  induction 1 as [|x l Hx _ IH]; [done|].
  rewrite fmap_cons, !filter_cons.
  destruct (decide (P x)) as [HP|HP].
  - rewrite decide_True by by apply Hx. by rewrite fmap_cons, IH.
  - rewrite decide_False by (by rewrite <- Hx). done.
Qed.

Lemma filter_none {A : Type} (P : A → Prop) `{!∀ x, Decision (P x)} (l : list A) :
  Forall (λ x, ¬ P x) l → filter P l = [].
Proof.
  induction 1 as [|x l Hx _ IH]; [done|]. by rewrite filter_cons, decide_False.
Qed.

Lemma filter_all {A : Type} (P : A → Prop) `{!∀ x, Decision (P x)} (l : list A) :
  Forall P l → filter P l = l.
Proof.
  induction 1 as [|x l Hx _ IH]; [done|]. by rewrite filter_cons, decide_True, IH.
Qed.

Lemma insert_index_head k sorted :
  Forall (λ k', (k.1 ≤ k'.1)%N) sorted → insert_index k sorted = k :: sorted.
Proof.
  destruct sorted as [|k' rest]; [done|].
  intros [Hle _]%Forall_cons_1. simpl. by rewrite decide_True.
Qed.

(** Inserting an index into the selected items of an ascending list
    selects it too. *)
Lemma insert_index_filter k (selected universe : list (N * string)) :
  ascending universe →
  k ∈ universe → k ∉ selected →
  insert_index k (filter (λ x, x ∈ selected) universe)
  = filter (λ x, x ∈ k :: selected) universe.
Proof.
  intros Hsorted. induction universe as [|u universe IH]; [by intros ?%elem_of_nil|].
  destruct Hsorted as [Hu Hsorted].
  intros Hin Hnot. rewrite !filter_cons.
  destruct (decide (k = u)) as [->|Hne].
  - rewrite decide_False, decide_True by (done || by left).
    rewrite insert_index_head.
    + f_equal. apply filter_ext_in. eapply Forall_impl; [exact Hu|].
      intros x Hlt. simpl. rewrite elem_of_cons. split; [by right|].
      intros [->|?]; [lia|done].
    + apply Forall_forall. intros x [_ Hx]%list_elem_of_filter.
      rewrite Forall_forall in Hu. specialize (Hu x Hx). simpl in Hu. lia.
  - apply elem_of_cons in Hin as [?|Hin]; [done|].
    assert (Hlt : (u.1 < k.1)%N).
    { rewrite Forall_forall in Hu. by apply Hu. }
    destruct (decide (u ∈ selected)) as [Hsel|Hsel].
    + rewrite decide_True by by right. simpl.
      rewrite decide_False by lia. f_equal. by apply IH.
    + rewrite decide_False by (rewrite elem_of_cons; intros [?|?]; congruence).
      by apply IH.
Qed.

(** The insertion sort of indexes taken without repetition from an
    ascending list selects them from that list. *)
Lemma sorted_indexes (indexes universe : list (N * string)) :
  ascending universe →
  NoDup indexes → Forall (λ k, k ∈ universe) indexes →
  foldr insert_index [] indexes = filter (λ x, x ∈ indexes) universe.
Proof.
  intros Hsorted. induction indexes as [|k indexes IH]; intros Hdup Hall; simpl.
  - induction universe as [|u universe IHu]; [done|].
    rewrite filter_cons, decide_False by apply not_elem_of_nil.
    apply IHu; [by destruct Hsorted|constructor].
  - apply NoDup_cons in Hdup as [Hnot Hdup].
    apply Forall_cons_1 in Hall as [Hin Hall].
    rewrite IH by done. by apply insert_index_filter.
Qed.

Lemma digit_indexes_sorted : ascending digit_indexes.
Proof. unfold digit_indexes, digits. simpl. repeat split; repeat constructor; simpl; lia. Qed.

(** The keys of an object whose keys are distinct characters: the digits
    among them in ascending order, then the others in creation order. *)
Lemma Object_keys_single (o : object) :
  NoDup o.*1 → Forall (λ k, ∃ c, k = String c "") o.*1 →
  Object_keys o
  = filter (λ d, d ∈ o.*1) digits ++ filter (λ k, k ∉ digits) o.*1.
Proof.
  intros Hdup Hsingle. unfold Object_keys. f_equal.
  - set (index := λ k : string, n ← index_of_key k; Some (n, k)).
    assert (Helem : ∀ x, x ∈ omap index o.*1 ↔ x.2 ∈ o.*1 ∧ index_of_key x.2 = Some x.1).
    { intros [n k]. rewrite list_elem_of_omap. simpl. split.
      - intros (k' & Hin & Hindex). unfold index in Hindex.
        destruct (index_of_key k') as [n'|] eqn:Hk'; [|done].
        injection Hindex as -> ->. done.
      - intros [Hin Hindex]. exists k. split; [done|]. unfold index. by rewrite Hindex. }
    rewrite (sorted_indexes _ digit_indexes digit_indexes_sorted).
    + change digits with (digit_indexes.*2). apply filter_fmap_in.
      apply Forall_forall. intros [n k] Hin. rewrite Helem. simpl.
      apply index_of_digit in Hin. split; [by intros [? _]|by split].
    + clear Helem. induction Hdup as [|k keys Hnot Hdup IH]; [constructor|].
      apply Forall_cons_1 in Hsingle as [_ Hsingle]. simpl.
      destruct (index k) as [x|] eqn:Hx; [|by apply IH].
      apply NoDup_cons. split; [|by apply IH].
      rewrite list_elem_of_omap. intros (k' & Hin & Hindex).
      unfold index in Hx, Hindex.
      destruct (index_of_key k), (index_of_key k'); simplify_eq/=. done.
    + apply Forall_forall. intros [n k] [Hin Hindex]%Helem. simpl in *.
      rewrite Forall_forall in Hsingle. destruct (Hsingle k Hin) as [c ->].
      pose proof (index_of_key_single c) as Hc. by rewrite Hindex in Hc.
  - apply filter_ext_in. eapply Forall_impl; [exact Hsingle|].
    intros k [c ->]. cbv beta. pose proof (index_of_key_single c) as Hc.
    destruct (index_of_key (String c "")) as [n|] eqn:Hindex; [|by split].
    split; [done|]. intros Hnot. destruct Hnot.
    change digits with (digit_indexes.*2). apply list_elem_of_fmap.
    by exists (n, String c "").
Qed.

(** The variables in the header of the table: the digits among the
    variables of the proposition in ascending order, then its other
    variables in the order of their first occurrence.  Without a digit
    among them, they are the variables in the order of their first
    occurrence, which is the order of the values of a row. *)
Theorem header_variables (proposition : string) (r : RPN) :
  generateRPN proposition = Returns r →
  let vars := variables (chars (trim proposition)) in
  Object_keys (mathToCodeVars r)
  = filter (λ d, d ∈ vars) digits ++ filter (λ v, v ∉ digits) vars
  ∧ ((∀ v, v ∈ vars → v ∉ digits) → Object_keys (mathToCodeVars r) = vars).
Proof.
  intros Hgen vars.
  destruct (generateRPN_scanned _ _ Hgen) as (pending & level & Hs).
  pose proof (scanned_mathToCodeVars _ _ Hs) as Hmap. simpl in Hmap. fold vars in Hmap.
  assert (Hkeys : (mathToCodeVars r).*1 = vars).
  { rewrite Hmap. apply fst_zip. by rewrite length_fmap, length_seq. }
  assert (Heq : Object_keys (mathToCodeVars r)
                = filter (λ d, d ∈ vars) digits ++ filter (λ v, v ∉ digits) vars).
  { rewrite Object_keys_single; rewrite Hkeys; [done|apply variables_NoDup|].
    apply Forall_forall. intros v [Hin _]%variables_elem. by eapply chars_single. }
  split; [done|]. intros Hnone. rewrite Heq.
  rewrite filter_none, filter_all; [done|by apply Forall_forall|].
  apply Forall_forall. intros d Hin Hd. by apply (Hnone d).
Qed.

Lemma header_variables_witness :
  ∃ r, generateRPN "q&2|1>p" = Returns r
     ∧ Object_keys (mathToCodeVars r) = ["1"; "2"; "q"; "p"].
Proof.
  destruct (generateRPN "q&2|1>p") as [r|e] eqn:Hgen; [|vm_compute in Hgen; discriminate].
  exists r. split; [done|].
  refine (eq_trans (proj1 (header_variables "q&2|1>p" r Hgen)) _).
  vm_compute. reflexivity.
Defined.
